(** * Doctor directory: normalisation, vocabulary, label resolution, filtering

    A shallow embedding of the client script of the doctor directory: the
    current script, which has the two normalisation strategies and the
    filter that matches in any language, and, in [Module Legacy], the
    filter and the normaliser of its predecessor [script.js].

    Conventions of the embedding.
    - A JavaScript string is a Rocq [string] holding its UTF-8 bytes; the
      empty string is the only falsy string. The fields of a row of [doctors.json] are strings that
      may be missing: [option string], [None] being [undefined].
    - A plain object used as a language-keyed map ([{}], [doc.names]) and a
      [Map] are association lists in insertion order, which is the order
      [Object.values], [Map.prototype.values] and [Map.prototype.keys]
      enumerate. Assigning to an existing key keeps its position. Language
      tags and labels are ordinary property names (neither array indices
      nor names inherited from [Object.prototype]).
    - A [Set] is a duplicate-free list in insertion order.
    - [String.prototype.toLowerCase] and [trim] depend on Unicode tables and
      are an interface ([JSString]); an ASCII instance is given for running
      the definitions. [encodeURIComponent] is a parameter of the functions
      that build links. [Array.prototype.sort] without a comparator is a
      stable insertion sort that compares the UTF-16 code units
      ([code_units]) of the strings.
    - The page is a record of the controls and globals the script reads and
      writes, and every function that touches them is a state transformer.
      A [<select>] is its option list and selected index, and every option
      has a [value] attribute. [applyFilters] yields the list it passes to
      [renderDoctors], and [renderDoctors] the texts and link targets of
      the cards; markup, the captions outside the selectors and the URL
      are not part of the record. *)

From Stdlib Require Import List String Ascii Bool Arith NArith Lia
  DecimalString DecimalNat Permutation Sorted.
Import ListNotations.
Open Scope string_scope.
Open Scope list_scope.

(** ** JavaScript values *)

(** [!!s] for a string. *)
Definition truthy (s : string) : bool := negb (s =? "").

(** [x || d] where [x] is a possibly missing string and [d] a string. *)
Definition js_or (x : option string) (d : string) : string :=
  match x with
  | Some s => if truthy s then s else d
  | None => d
  end.

(** [!!x] for a possibly missing string. *)
Definition truthy_opt (x : option string) : bool :=
  match x with
  | Some s => truthy s
  | None => false
  end.

(** [String(n)] for a non-negative integer. *)
Definition string_of_nat (n : nat) : string :=
  NilEmpty.string_of_uint (Nat.to_uint n).

(** The part of the string built-ins that depends on Unicode data. *)
Class JSString : Type := {
  toLowerCase : string -> string;
  trim : string -> string;
  toLowerCase_empty : toLowerCase "" = "";
  trim_empty : trim "" = ""
}.

(** [s.includes(q)]: [q] occurs in [s] as a contiguous substring. *)
Fixpoint includes (s q : string) : bool :=
  if prefix q s then true
  else match s with
       | EmptyString => false
       | String _ s' => includes s' q
       end.

(** [xs.join(sep)]. *)
Fixpoint join (sep : string) (xs : list string) : string :=
  match xs with
  | [] => ""
  | [x] => x
  | x :: rest => x ++ sep ++ join sep rest
  end.

(** ** Insertion-ordered maps and sets *)

Section Dict.
Variable V : Type.

Definition Dict := list (string * V).

(** [m[k]] / [m.get(k)]. *)
Fixpoint lookup (k : string) (m : Dict) : option V :=
  match m with
  | [] => None
  | (k', v) :: rest => if k =? k' then Some v else lookup k rest
  end.

(** [m.has(k)] / [k in m]. *)
Definition has (k : string) (m : Dict) : bool :=
  match lookup k m with Some _ => true | None => false end.

(** [m[k] = v] / [m.set(k, v)]: overwrite in place, or append. *)
Fixpoint insert (k : string) (v : V) (m : Dict) : Dict :=
  match m with
  | [] => [(k, v)]
  | (k', v') :: rest =>
      if k =? k' then (k', v) :: rest else (k', v') :: insert k v rest
  end.

(** [Object.keys(m)] / [[...m.keys()]]. *)
Definition keys (m : Dict) : list string := map fst m.

(** [Object.values(m)] / [[...m.values()]]. *)
Definition values (m : Dict) : list V := map snd m.
End Dict.

Arguments lookup {V} k m.
Arguments has {V} k m.
Arguments insert {V} k v m.
Arguments keys {V} m.
Arguments values {V} m.

(** A language-keyed object: language tag to label. *)
Definition Obj := Dict string.

(** A [Set] of strings. *)
Definition StrSet := list string.

Definition set_has (x : string) (s : StrSet) : bool :=
  existsb (String.eqb x) s.

(** [s.add(x)]. *)
Definition set_add (x : string) (s : StrSet) : StrSet :=
  if set_has x s then s else s ++ [x].

(** ** Data model *)

(** One row of [doctors.json]. *)
Module Raw.
Record t : Type := mk {
  doc_id : option string;
  lang : option string;
  doc_name : option string;
  doc_address : option string;
  doc_tel_A : option string;
  doc_cat_name : option string;
  doc_wh : option string;
  doc_remark : option string;
  area_name : option string;
  district_name : option string;
  city_name : option string;
  doc_lat : option string;
  doc_long : option string;
  cta_link : option string
}.

(** A row with no field at all. *)
Definition empty : t :=
  mk None None None None None None None None None None None None None None.
End Raw.

(** The doctor object both normalisers build. [baseId] exists on per-row
    objects only. *)
Record Doctor : Type := mkDoctor {
  id : string;
  baseId : option string;
  names : Obj;
  addresses : Obj;
  address : string;
  phones : Obj;
  specialties : Obj;
  openings : Obj;
  remarks : Obj;
  areas : Obj;
  districts : Obj;
  cities : Obj;
  lat : string;
  lng : string;
  cta_link : string
}.

(** [item.doc_id || ''] *)
Definition row_id (item : Raw.t) : string := js_or (Raw.doc_id item) "".

(** [item.lang || 'en'] *)
Definition row_lang (item : Raw.t) : string := js_or (Raw.lang item) "en".

(** ** The normaliser, grouped strategy: [mergeByDocId] *)

(** The object stored by [map.set(id, {...})] on the first occurrence. *)
Definition fresh_doctor (i : string) (item : Raw.t) : Doctor :=
  {| id := i; baseId := None;
     names := []; addresses := [];
     address := js_or (Raw.doc_address item) "";
     phones := []; specialties := []; openings := []; remarks := [];
     areas := []; districts := []; cities := [];
     lat := js_or (Raw.doc_lat item) "";
     lng := js_or (Raw.doc_long item) "";
     cta_link := js_or (Raw.cta_link item) "" |}.

(** [if (x) m[lang] = x;] *)
Definition set_if (x : option string) (l : string) (m : Obj) : Obj :=
  match x with
  | Some s => if truthy s then insert l s m else m
  | None => m
  end.

(** [if (!cur && x) cur = x;] *)
Definition keep_or_fill (cur : string) (x : option string) : string :=
  if negb (truthy cur) && truthy_opt x then js_or x "" else cur.

(** The assignments of the loop body after [const doc = map.get(id)]. *)
Definition populate (item : Raw.t) (l : string) (doc : Doctor) : Doctor :=
  {| id := id doc; baseId := baseId doc;
     names :=
       insert l (js_or (Raw.doc_name item) (js_or (lookup l (names doc)) ""))
              (names doc);
     addresses := set_if (Raw.doc_address item) l (addresses doc);
     address := address doc;
     phones := set_if (Raw.doc_tel_A item) l (phones doc);
     specialties := set_if (Raw.doc_cat_name item) l (specialties doc);
     openings := set_if (Raw.doc_wh item) l (openings doc);
     remarks := set_if (Raw.doc_remark item) l (remarks doc);
     areas := set_if (Raw.area_name item) l (areas doc);
     districts := set_if (Raw.district_name item) l (districts doc);
     cities := set_if (Raw.city_name item) l (cities doc);
     lat := keep_or_fill (lat doc) (Raw.doc_lat item);
     lng := keep_or_fill (lng doc) (Raw.doc_long item);
     cta_link := cta_link doc |}.

(** One iteration of [data.forEach]. The object held by the map is mutated
    in place, so the entry keeps its position. *)
Definition merge_step (m : Dict Doctor) (item : Raw.t) : Dict Doctor :=
  let i := row_id item in
  let l := row_lang item in
  let m1 := if has i m then m else insert i (fresh_doctor i item) m in
  match lookup i m1 with
  | Some doc => insert i (populate item l doc) m1
  | None => m1
  end.

Definition merge_map (data : list Raw.t) : Dict Doctor :=
  fold_left merge_step data [].

Definition mergeByDocId (data : list Raw.t) : list Doctor :=
  values (merge_map data).

(** ** The normaliser, per-row strategy: [normalizePerRow] *)

(** The object built for the row at position [idx]. *)
Definition row_doctor (idx : nat) (item : Raw.t) : Doctor :=
  let l := row_lang item in
  {| id := row_id item ++ "_" ++ l ++ "_" ++ string_of_nat idx;
     baseId := Some (row_id item);
     names := [(l, js_or (Raw.doc_name item) "")];
     addresses := [(l, js_or (Raw.doc_address item) "")];
     address := js_or (Raw.doc_address item) "";
     phones := [(l, js_or (Raw.doc_tel_A item) "")];
     specialties := [(l, js_or (Raw.doc_cat_name item) "")];
     openings := [(l, js_or (Raw.doc_wh item) "")];
     remarks := [(l, js_or (Raw.doc_remark item) "")];
     areas := [(l, js_or (Raw.area_name item) "")];
     districts := [(l, js_or (Raw.district_name item) "")];
     cities := [(l, js_or (Raw.city_name item) "")];
     lat := js_or (Raw.doc_lat item) "";
     lng := js_or (Raw.doc_long item) "";
     cta_link := js_or (Raw.cta_link item) "" |}.

(** [data.map((item, idx) => ...)], counting from [start]. *)
Fixpoint map_idx {A B : Type} (f : nat -> A -> B) (start : nat) (xs : list A)
  : list B :=
  match xs with
  | [] => []
  | x :: rest => f start x :: map_idx f (S start) rest
  end.

Definition normalizePerRow (data : list Raw.t) : list Doctor :=
  map_idx row_doctor 0 data.

(** [doctors = showAllRecords ? normalizePerRow(rawData) : mergeByDocId(rawData)] *)
Definition normalize (showAllRecords : bool) (data : list Raw.t) : list Doctor :=
  if showAllRecords then normalizePerRow data else mergeByDocId data.

(** ** Label resolution: [tData] *)

(** The nine localisable attributes, the keys of [plural]. *)
Module Field.
Inductive t : Type :=
| name | address | specialty | opening | area | district | city | phone
| remark.
End Field.

(** [doc[plural[field]]]: both normalisers give every doctor all nine
    objects, so the [|| {}] default and the non-object branch are not
    reached. *)
Definition plural (field : Field.t) (doc : Doctor) : Obj :=
  match field with
  | Field.name => names doc
  | Field.address => addresses doc
  | Field.specialty => specialties doc
  | Field.opening => openings doc
  | Field.area => areas doc
  | Field.district => districts doc
  | Field.city => cities doc
  | Field.phone => phones doc
  | Field.remark => remarks doc
  end.

(** [lang || (langSelect && langSelect.value) || 'en']; [langSelect] is the
    value of the language selector, [lang] is the empty string when the
    caller passes none. *)
Definition effective_lang (langSelect lang : string) : string :=
  if truthy lang then lang
  else if truthy langSelect then langSelect
  else "en".

(** [map[lang] || map['zh-HK'] || map['zh-CN'] || map['en'] || ''] *)
Definition resolve (m : Obj) (l : string) : string :=
  js_or (lookup l m)
    (js_or (lookup "zh-HK" m)
       (js_or (lookup "zh-CN" m)
          (js_or (lookup "en" m) ""))).

Definition tData (langSelect : string) (doc : Doctor) (field : Field.t)
    (lang : string) : string :=
  resolve (plural field doc) (effective_lang langSelect lang).

(** ** Telephone links: [formatPhoneForTel] *)

Definition is_digit (c : ascii) : bool :=
  ((48 <=? nat_of_ascii c) && (nat_of_ascii c <=? 57))%nat.

(** A character outside the class [[^+0-9]]. *)
Definition tel_char (c : ascii) : bool :=
  Ascii.eqb c "+" || is_digit c.

(** [s.replace(/[^+0-9]/g, '')] *)
Fixpoint replace_non_tel (s : string) : string :=
  match s with
  | EmptyString => EmptyString
  | String c rest =>
      if tel_char c then String c (replace_non_tel rest)
      else replace_non_tel rest
  end.

Definition formatPhoneForTel (phone : string) : string :=
  if negb (truthy phone) then "" else replace_non_tel phone.

(** ** The page: controls and globals the script reads and writes *)

Record SelOption : Type := mkOption {
  opt_value : string;
  opt_text : string
}.

(** A drop-down [<select>]: its options and the selected index. *)
Record Select : Type := mkSelect {
  options : list SelOption;
  selectedIndex : option nat
}.

(** [sel.value]: the value of the selected option, [''] when none is. *)
Definition value (sel : Select) : string :=
  match selectedIndex sel with
  | Some i =>
      match nth_error (options sel) i with
      | Some o => opt_value o
      | None => ""
      end
  | None => ""
  end.

(** [sel.innerHTML = `<option value="">${label}</option>`]: the option list
    is replaced by the single placeholder, which becomes the selection. *)
Definition reset_options (label : string) : Select :=
  {| options := [mkOption "" label]; selectedIndex := Some 0 |}.

(** [sel.appendChild(opt)]: an existing selection stays; a drop-down with no
    selection falls back to its first option. *)
Definition appendChild (sel : Select) (o : SelOption) : Select :=
  {| options := options sel ++ [o];
     selectedIndex :=
       match selectedIndex sel with
       | Some i => Some i
       | None => Some 0
       end |}.

Fixpoint index_of_value (v : string) (os : list SelOption) : option nat :=
  match os with
  | [] => None
  | o :: rest =>
      if opt_value o =? v then Some 0
      else option_map S (index_of_value v rest)
  end.

(** [sel.value = v], also what the browser does when the user picks the
    option with value [v] before it fires [change]. *)
Definition set_value (v : string) (sel : Select) : Select :=
  {| options := options sel; selectedIndex := index_of_value v (options sel) |}.

(** [Map] city label -> [Map] district label -> [Set] of area labels. *)
Definition CitiesMap := Dict (Dict StrSet).

Record Page : Type := mkPage {
  searchInput : string;            (* searchInput.value *)
  specialtySelect : Select;
  citySelect : Select;
  districtSelect : Select;
  areaSelect : Select;
  langSelect : string;             (* langSelect.value *)
  citiesMap : option CitiesMap;    (* window.__citiesMap *)
  doctors : list Doctor
}.

Definition with_searchInput (v : string) (p : Page) : Page :=
  mkPage v (specialtySelect p) (citySelect p) (districtSelect p)
         (areaSelect p) (langSelect p) (citiesMap p) (doctors p).
Definition with_specialtySelect (s : Select) (p : Page) : Page :=
  mkPage (searchInput p) s (citySelect p) (districtSelect p)
         (areaSelect p) (langSelect p) (citiesMap p) (doctors p).
Definition with_citySelect (s : Select) (p : Page) : Page :=
  mkPage (searchInput p) (specialtySelect p) s (districtSelect p)
         (areaSelect p) (langSelect p) (citiesMap p) (doctors p).
Definition with_districtSelect (s : Select) (p : Page) : Page :=
  mkPage (searchInput p) (specialtySelect p) (citySelect p) s
         (areaSelect p) (langSelect p) (citiesMap p) (doctors p).
Definition with_areaSelect (s : Select) (p : Page) : Page :=
  mkPage (searchInput p) (specialtySelect p) (citySelect p)
         (districtSelect p) s (langSelect p) (citiesMap p) (doctors p).
Definition with_langSelect (v : string) (p : Page) : Page :=
  mkPage (searchInput p) (specialtySelect p) (citySelect p)
         (districtSelect p) (areaSelect p) v (citiesMap p) (doctors p).
Definition with_citiesMap (c : option CitiesMap) (p : Page) : Page :=
  mkPage (searchInput p) (specialtySelect p) (citySelect p)
         (districtSelect p) (areaSelect p) (langSelect p) c (doctors p).

(** [(langSelect && langSelect.value) || 'en'] *)
Definition ui_lang (p : Page) : string :=
  if truthy (langSelect p) then langSelect p else "en".

(** The four placeholder labels of [translations], through [t(key)]:
    [translations[langSelect.value || 'en'] || translations.en]. *)
Inductive TKey : Type := allSpecialties | allCities | allDistricts | allAreas.

Definition t (p : Page) (key : TKey) : string :=
  if ui_lang p =? "zh-HK" then
    match key with
    | allSpecialties => "所有專科"
    | allCities => "所有城市"
    | allDistricts => "所有地區"
    | allAreas => "所有分區"
    end
  else
    match key with
    | allSpecialties => "All Specialties"
    | allCities => "All Cities"
    | allDistricts => "All Districts"
    | allAreas => "All Areas"
    end.

(** [sel.querySelector('option') && (sel.querySelector('option').textContent
    = label)]: the caption of the first option, when there is one. Every
    option carries a [value] attribute, so its value is untouched. *)
Definition retitle_first (label : string) (sel : Select) : Select :=
  match options sel with
  | [] => sel
  | o :: rest =>
      {| options := mkOption (opt_value o) label :: rest;
         selectedIndex := selectedIndex sel |}
  end.

(** What [applyTranslationsToUI] does to the four selectors. *)
Definition applyTranslationsToUI (p : Page) : Page :=
  let p1 :=
    with_specialtySelect
      (retitle_first (t p allSpecialties) (specialtySelect p)) p in
  let p2 :=
    with_citySelect (retitle_first (t p allCities) (citySelect p1)) p1 in
  let p3 :=
    with_districtSelect
      (retitle_first (t p allDistricts) (districtSelect p2)) p2 in
  with_areaSelect (retitle_first (t p allAreas) (areaSelect p3)) p3.

(** A continuation byte of UTF-8. *)
Definition is_continuation (b : ascii) : bool :=
  ((128 <=? N_of_ascii b) && (N_of_ascii b <? 192))%N.

(** The one or two UTF-16 code units of a code point. *)
Definition utf16_of_code_point (cp : N) : list N :=
  if (cp <? 65536)%N then [cp]
  else [(55296 + (cp - 65536) / 1024)%N; (56320 + (cp - 65536) mod 1024)%N].

(** The UTF-16 code units of the JavaScript string whose UTF-8 bytes are
    [s]; a byte that does not start a complete sequence counts as a unit
    of its own. *)
Fixpoint code_units (s : string) : list N :=
  match s with
  | EmptyString => []
  | String b0 r0 =>
      let n0 := N_of_ascii b0 in
      let stray := n0 :: code_units r0 in
      if (n0 <? 128)%N then stray
      else if (n0 <? 192)%N then stray
      else if (n0 <? 224)%N then
        match r0 with
        | String b1 r1 =>
            if is_continuation b1 then
              ((n0 - 192) * 64 + (N_of_ascii b1 - 128))%N :: code_units r1
            else stray
        | _ => stray
        end
      else if (n0 <? 240)%N then
        match r0 with
        | String b1 (String b2 r2) =>
            if is_continuation b1 && is_continuation b2 then
              ((n0 - 224) * 4096 + (N_of_ascii b1 - 128) * 64
               + (N_of_ascii b2 - 128))%N :: code_units r2
            else stray
        | _ => stray
        end
      else if (n0 <? 248)%N then
        match r0 with
        | String b1 (String b2 (String b3 r3)) =>
            if is_continuation b1 && is_continuation b2 && is_continuation b3
            then
              utf16_of_code_point
                ((n0 - 240) * 262144 + (N_of_ascii b1 - 128) * 4096
                 + (N_of_ascii b2 - 128) * 64 + (N_of_ascii b3 - 128))%N
              ++ code_units r3
            else stray
        | _ => stray
        end
      else stray
  end.

(** Lexicographic [<=] on sequences of code units. *)
Fixpoint units_leb (xs ys : list N) : bool :=
  match xs, ys with
  | [], _ => true
  | _ :: _, [] => false
  | x :: xs', y :: ys' =>
      if (x <? y)%N then true
      else if (x =? y)%N then units_leb xs' ys'
      else false
  end.

(** [!(x > y)] for two strings: the order of the default comparator of
    [Array.prototype.sort]. *)
Definition js_leb (x y : string) : bool :=
  units_leb (code_units x) (code_units y).

Definition js_le (x y : string) : Prop := js_leb x y = true.

(** [[...xs].sort()]: ascending by UTF-16 code units, as a stable
    insertion sort. *)
Fixpoint sort_insert (x : string) (xs : list string) : list string :=
  match xs with
  | [] => [x]
  | y :: rest => if js_leb x y then x :: xs else y :: sort_insert x rest
  end.

Fixpoint sort (xs : list string) : list string :=
  match xs with
  | [] => []
  | x :: rest => sort_insert x (sort rest)
  end.

(** ** The vocabulary builder: [populateFilters] *)

Record Vocabulary : Type := mkVocabulary {
  voc_specialties : StrSet;
  voc_cities : CitiesMap
}.

(** The body of [doctors.forEach(d => ...)]. A doctor object has no
    [specialty], [city], [district] or [area] property, so the middle
    operand of [tData(...) || d.city || ''] is [undefined]. *)
Definition vocab_step (ls l : string) (acc : Vocabulary) (d : Doctor)
  : Vocabulary :=
  let spec := tData ls d Field.specialty l in
  let specialties' :=
    if truthy spec then set_add spec (voc_specialties acc)
    else voc_specialties acc in
  let cityLabel := tData ls d Field.city l in
  let districtLabel := tData ls d Field.district l in
  let areaLabel := tData ls d Field.area l in
  let cities1 :=
    if has cityLabel (voc_cities acc) then voc_cities acc
    else insert cityLabel [] (voc_cities acc) in
  let districtMap := match lookup cityLabel cities1 with
                     | Some dm => dm
                     | None => []
                     end in
  let districtMap1 :=
    if has districtLabel districtMap then districtMap
    else insert districtLabel [] districtMap in
  let districtMap2 :=
    if truthy areaLabel then
      match lookup districtLabel districtMap1 with
      | Some s => insert districtLabel (set_add areaLabel s) districtMap1
      | None => districtMap1
      end
    else districtMap1 in
  mkVocabulary specialties' (insert cityLabel districtMap2 cities1).

(** The two collections [populateFilters] builds: [ls] is the value of the
    language selector, [l] the constant [lang] computed from it. *)
Definition build_vocabulary (ls l : string) (ds : list Doctor) : Vocabulary :=
  fold_left (vocab_step ls l) ds (mkVocabulary [] []).

Definition append_options (sel : Select) (os : list SelOption) : Select :=
  fold_left appendChild os sel.

Definition populateFilters (p : Page) : Page :=
  let v := build_vocabulary (langSelect p) (ui_lang p) (doctors p) in
  let p1 :=
    with_specialtySelect
      (append_options (specialtySelect p)
         (map (fun s => mkOption s s) (sort (voc_specialties v)))) p in
  let p2 :=
    with_citySelect
      (append_options (citySelect p1)
         (map (fun c => mkOption c (if truthy c then c else "—"))
              (sort (keys (voc_cities v))))) p1 in
  with_citiesMap (Some (voc_cities v)) p2.

(** ** The dependent selectors *)

(** The fallback loop of [updateDistrictsForCity]. *)
Definition districts_step (ls l city : string) (acc : StrSet) (d : Doctor)
  : StrSet :=
  let c := tData ls d Field.city l in
  let districtLabel := tData ls d Field.district l in
  if (city =? "") || (c =? city) then
    if truthy districtLabel then set_add districtLabel acc else acc
  else acc.

Definition updateDistrictsForCity (city : string) (p : Page) : Page :=
  let p1 := with_districtSelect (reset_options (t p allDistricts)) p in
  let p2 := with_areaSelect (reset_options (t p allAreas)) p1 in
  let fill (xs : list string) :=
    with_districtSelect
      (append_options (districtSelect p2) (map (fun x => mkOption x x) (sort xs)))
      p2 in
  match citiesMap p with
  | Some cm =>
      if has city cm then
        let districtMap := match lookup city cm with
                           | Some dm => dm
                           | None => []
                           end in
        fill (keys districtMap)
      else fill (fold_left (districts_step (langSelect p) (ui_lang p) city)
                      (doctors p) [])
  | None => fill (fold_left (districts_step (langSelect p) (ui_lang p) city)
                      (doctors p) [])
  end.

(** The fallback loop of [updateAreasForDistrict]. *)
Definition areas_step (ls l city district : string) (acc : StrSet)
    (d : Doctor) : StrSet :=
  let c := tData ls d Field.city l in
  let districtLabel := tData ls d Field.district l in
  let areaLabel := tData ls d Field.area l in
  if ((city =? "") || (c =? city))
     && ((district =? "") || (districtLabel =? district)) then
    if truthy areaLabel then set_add areaLabel acc else acc
  else acc.

Definition updateAreasForDistrict (city district : string) (p : Page) : Page :=
  let p1 := with_areaSelect (reset_options (t p allAreas)) p in
  let fill (xs : list string) :=
    with_areaSelect
      (append_options (areaSelect p1) (map (fun x => mkOption x x) (sort xs)))
      p1 in
  match citiesMap p with
  | Some cm =>
      if has city cm then
        let districtMap := match lookup city cm with
                           | Some dm => dm
                           | None => []
                           end in
        let areaSet := match lookup district districtMap with
                       | Some s => s
                       | None => []
                       end in
        fill areaSet
      else
        fill (fold_left (areas_step (langSelect p) (ui_lang p) city district)
                  (doctors p) [])
  | None =>
      fill (fold_left (areas_step (langSelect p) (ui_lang p) city district)
                  (doctors p) [])
  end.

(** ** The filter engine: [applyFilters] *)

Section Filter.
Context {JS : JSString}.

(** [Object.values(m).map(x => (x||'').toString().toLowerCase())
      .some(c => c === sel.toLowerCase())] *)
Definition some_value_is (m : Obj) (sel : string) : bool :=
  existsb (fun c => c =? toLowerCase sel) (map toLowerCase (values m)).

(** The callback of [doctors.filter], with the five values read from the
    controls. *)
Definition passes (q specialty city district area : string) (d : Doctor)
  : bool :=
  let allNames := toLowerCase (join " " (values (names d))) in
  if truthy q && negb (includes allNames q) then false
  else if truthy specialty && negb (some_value_is (specialties d) specialty)
  then false
  else if truthy city && negb (some_value_is (cities d) city) then false
  else if truthy district && negb (some_value_is (districts d) district)
  then false
  else if truthy area && negb (some_value_is (areas d) area) then false
  else true.

(** The list [applyFilters] hands to [renderDoctors]. *)
Definition applyFilters (p : Page) : list Doctor :=
  let q := toLowerCase (trim (searchInput p)) in
  let specialty := value (specialtySelect p) in
  let city := value (citySelect p) in
  let district := value (districtSelect p) in
  let area := value (areaSelect p) in
  filter (passes q specialty city district area) (doctors p).

(** ** Event listeners

    Each listener is given the page after the browser has applied the
    user's choice, and returns the page it leaves and the list it
    renders. *)

Definition on_search_input (v : string) (p : Page) : Page * list Doctor :=
  let p0 := with_searchInput v p in
  (p0, applyFilters p0).

Definition on_specialty_change (v : string) (p : Page)
  : Page * list Doctor :=
  let p0 := with_specialtySelect (set_value v (specialtySelect p)) p in
  (p0, applyFilters p0).

Definition on_city_change (v : string) (p : Page) : Page * list Doctor :=
  let p0 := with_citySelect (set_value v (citySelect p)) p in
  let target := value (citySelect p0) in
  let p1 := updateDistrictsForCity target p0 in
  let p2 := updateAreasForDistrict target "" p1 in
  (p2, applyFilters p2).

Definition on_district_change (v : string) (p : Page)
  : Page * list Doctor :=
  let p0 := with_districtSelect (set_value v (districtSelect p)) p in
  let target := value (districtSelect p0) in
  let p1 := updateAreasForDistrict (value (citySelect p0)) target p0 in
  (p1, applyFilters p1).

Definition on_area_change (v : string) (p : Page) : Page * list Doctor :=
  let p0 := with_areaSelect (set_value v (areaSelect p)) p in
  (p0, applyFilters p0).

Definition on_clear (p : Page) : Page * list Doctor :=
  let p1 := with_searchInput "" p in
  let p2 := with_specialtySelect (set_value "" (specialtySelect p1)) p1 in
  let p3 := with_citySelect (set_value "" (citySelect p2)) p2 in
  let p4 := with_districtSelect (set_value "" (districtSelect p3)) p3 in
  let p5 := with_areaSelect (set_value "" (areaSelect p4)) p4 in
  let p6 := updateDistrictsForCity "" p5 in
  let p7 := updateAreasForDistrict "" "" p6 in
  (p7, applyFilters p7).

Definition on_lang_change (v : string) (p : Page) : Page * list Doctor :=
  let p0 := applyTranslationsToUI (with_langSelect v p) in
  let p1 := with_specialtySelect (reset_options (t p0 allSpecialties)) p0 in
  let p2 := with_citySelect (reset_options (t p0 allCities)) p1 in
  let p3 := with_districtSelect (reset_options (t p0 allDistricts)) p2 in
  let p4 := with_areaSelect (reset_options (t p0 allAreas)) p3 in
  let p5 := populateFilters p4 in
  let p6 := updateDistrictsForCity "" p5 in
  let p7 := updateAreasForDistrict "" "" p6 in
  (p7, applyFilters p7).

(** Some entry of the map, under whatever language, equals the selected
    label up to case. *)
Definition matches_any_language (m : Obj) (sel : string) : Prop :=
  exists l v, In (l, v) m /\ toLowerCase v = toLowerCase sel.

(** The text query passes: it is empty, or it occurs in the lower-cased
    names of all languages joined by spaces. *)
Definition query_passes (q : string) (d : Doctor) : Prop :=
  q = "" \/ includes (toLowerCase (join " " (values (names d)))) q = true.

End Filter.

(** ** The older script

    [script.js] is the predecessor of the script above. Its [tData] and
    [formatPhoneForTel] are the same functions; its filter compares the
    label resolved for the display language instead of every stored
    label, and its [mergeByDocId] keys the doctors by the raw [doc_id] and
    never touches the coordinates after the first row. *)
Module Legacy.
(** The callback of [doctors.filter] in [script.js]. *)
Definition passes {JS : JSString} (langSelect q specialty city district
    area : string) (d : Doctor) : bool :=
  let allNames := toLowerCase (join " " (values (names d))) in
  if truthy q && negb (includes allNames q) then false
  else
    let l := if truthy langSelect then langSelect else "en" in
    let docSpec := tData langSelect d Field.specialty l in
    let docCity := tData langSelect d Field.city l in
    let docDistrict := tData langSelect d Field.district l in
    let docArea := tData langSelect d Field.area l in
    if truthy specialty && negb (docSpec =? specialty) then false
    else if truthy city && negb (docCity =? city) then false
    else if truthy district && negb (docDistrict =? district) then false
    else if truthy area && negb (docArea =? area) then false
    else true.

Definition applyFilters {JS : JSString} (p : Page) : list Doctor :=
  let q := toLowerCase (trim (searchInput p)) in
  filter (passes (langSelect p) q (value (specialtySelect p))
            (value (citySelect p)) (value (districtSelect p))
            (value (areaSelect p)))
         (doctors p).
(** The doctor object of [script.js]: no [addresses], no [remarks], and an
    [id] that is [undefined] for a row without [doc_id]. *)
Record Entity : Type := mkEntity {
  id : option string;
  names : Obj;
  address : string;
  phones : Obj;
  specialties : Obj;
  openings : Obj;
  areas : Obj;
  districts : Obj;
  cities : Obj;
  lat : string;
  lng : string;
  cta_link : string
}.

(** Equality of [Map] keys that are strings or [undefined]. *)
Definition key_eqb (a b : option string) : bool :=
  match a, b with
  | Some x, Some y => x =? y
  | None, None => true
  | _, _ => false
  end.

(** [map.get(k)] *)
Fixpoint get (k : option string) (m : list (option string * Entity))
  : option Entity :=
  match m with
  | [] => None
  | (k', e) :: rest => if key_eqb k k' then Some e else get k rest
  end.

(** [map.set(k, e)] *)
Fixpoint set (k : option string) (e : Entity)
    (m : list (option string * Entity)) : list (option string * Entity) :=
  match m with
  | [] => [(k, e)]
  | (k', e') :: rest =>
      if key_eqb k k' then (k', e) :: rest else (k', e') :: set k e rest
  end.

Definition fresh_entity (item : Raw.t) : Entity :=
  {| id := Raw.doc_id item;
     names := [];
     address := js_or (Raw.doc_address item) "";
     phones := []; specialties := []; openings := [];
     areas := []; districts := []; cities := [];
     lat := js_or (Raw.doc_lat item) "";
     lng := js_or (Raw.doc_long item) "";
     cta_link := js_or (Raw.cta_link item) "" |}.

(** The assignments after [const doc = map.get(id)]. *)
Definition populate (item : Raw.t) (doc : Entity) : Entity :=
  let l := row_lang item in
  {| id := id doc;
     names :=
       insert l (js_or (Raw.doc_name item) (js_or (lookup l (names doc)) ""))
              (names doc);
     address := address doc;
     phones := set_if (Raw.doc_tel_A item) l (phones doc);
     specialties := set_if (Raw.doc_cat_name item) l (specialties doc);
     openings := set_if (Raw.doc_wh item) l (openings doc);
     areas := set_if (Raw.area_name item) l (areas doc);
     districts := set_if (Raw.district_name item) l (districts doc);
     cities := set_if (Raw.city_name item) l (cities doc);
     lat := lat doc;
     lng := lng doc;
     cta_link := cta_link doc |}.

Definition merge_step (m : list (option string * Entity)) (item : Raw.t)
  : list (option string * Entity) :=
  let i := Raw.doc_id item in
  let m1 := match get i m with
            | Some _ => m
            | None => set i (fresh_entity item) m
            end in
  match get i m1 with
  | Some doc => set i (populate item doc) m1
  | None => m1
  end.

Definition mergeByDocId (data : list Raw.t) : list Entity :=
  map snd (fold_left merge_step data []).
End Legacy.

(** ** An instance of the string interface for ASCII text *)

Definition lower_char (c : ascii) : ascii :=
  let n := nat_of_ascii c in
  if ((65 <=? n) && (n <=? 90))%nat then ascii_of_nat (n + 32) else c.

Fixpoint ascii_lower (s : string) : string :=
  match s with
  | EmptyString => EmptyString
  | String c rest => String (lower_char c) (ascii_lower rest)
  end.

Definition is_space (c : ascii) : bool :=
  let n := nat_of_ascii c in
  ((n =? 32) || ((9 <=? n) && (n <=? 13)))%nat.

Fixpoint trim_start (s : string) : string :=
  match s with
  | EmptyString => EmptyString
  | String c rest => if is_space c then trim_start rest else s
  end.

(** Drops trailing white space: a character is kept when it is not a space
    or when something is kept after it. *)
Fixpoint trim_end (s : string) : string :=
  match s with
  | EmptyString => EmptyString
  | String c rest =>
      match trim_end rest with
      | EmptyString => if is_space c then EmptyString else String c EmptyString
      | kept => String c kept
      end
  end.

Definition ascii_strings : JSString := {|
  toLowerCase := ascii_lower;
  trim := fun s => trim_end (trim_start s);
  toLowerCase_empty := eq_refl;
  trim_empty := eq_refl
|}.

(** ** Start-up: the display language and the default city *)

(** [s.split('/')] *)
Fixpoint split_slash (s : string) : list string :=
  match s with
  | EmptyString => [EmptyString]
  | String c rest =>
      if Ascii.eqb c "/" then EmptyString :: split_slash rest
      else match split_slash rest with
           | [] => [String c EmptyString]
           | seg :: segs => String c seg :: segs
           end
  end.

(** [location.pathname.split('/').filter(Boolean)[0] || ''] *)
Definition first_segment (pathname : string) : string :=
  match filter truthy (split_slash pathname) with
  | seg :: _ => seg
  | [] => ""
  end.

(** [a || b] for two strings. *)
Definition or_str (a b : string) : string := if truthy a then a else b.

Section Startup.
Context {JS : JSString}.

(** The value of [initialLang] in [loadDoctors]: [q] is
    [params.get('lang')], [null] when the parameter is missing. *)
Definition detect_lang (q : option string) (pathname : string) : string :=
  let pathSeg := toLowerCase (first_segment pathname) in
  let cand := toLowerCase (js_or q pathSeg) in
  if truthy cand then
    if existsb (String.eqb cand) ["zh-hk"; "zh_hk"; "zhhk"; "zh-hant"; "zh"]
    then "zh-HK"
    else if existsb (String.eqb cand) ["en"; "en-us"; "en-gb"] then "en"
    else "en"
  else "en".

(** The callback of [options.find] for the preferred label [p]. *)
Definition option_matches (p : string) (o : SelOption) : bool :=
  let v := opt_value o in
  let txt := opt_text o in
  (v =? p) || (txt =? p) || (toLowerCase v =? toLowerCase p)
  || (toLowerCase txt =? toLowerCase p).

(** [lang === 'en' ? ['Hong Kong','香港'] : ['香港','Hong Kong']] *)
Definition preferred_cities (l : string) : list string :=
  if l =? "en" then ["Hong Kong"; "香港"] else ["香港"; "Hong Kong"].

(** The first option found for the first preferred label that has one. *)
Fixpoint first_preferred (preferred : list string) (os : list SelOption)
  : option SelOption :=
  match preferred with
  | [] => None
  | p :: rest =>
      match find (option_matches p) os with
      | Some matchOpt => Some matchOpt
      | None => first_preferred rest os
      end
  end.

Definition setDefaultCitySelection (p : Page) : Page :=
  match first_preferred (preferred_cities (ui_lang p))
                        (options (citySelect p)) with
  | Some matchOpt =>
      let p1 :=
        with_citySelect (set_value (opt_value matchOpt) (citySelect p)) p in
      let p2 := updateDistrictsForCity (opt_value matchOpt) p1 in
      updateAreasForDistrict (opt_value matchOpt) "" p2
  | None => with_citySelect (set_value "" (citySelect p)) p
  end.

(** The [try] block of [loadDoctors] once [rawData] has arrived: [flag] is
    the global [showAllRecords], [q] and [pathname] come from the URL, and
    the language selector offers both languages, so that assigning its
    value takes effect. *)
Definition loadDoctors (flag : bool) (rawData : list Raw.t)
    (q : option string) (pathname : string) (p : Page)
  : Page * list Doctor :=
  let p0 :=
    mkPage (searchInput p) (specialtySelect p) (citySelect p)
           (districtSelect p) (areaSelect p) (detect_lang q pathname)
           (citiesMap p) (normalize flag rawData) in
  let p1 := populateFilters p0 in
  let p2 := applyTranslationsToUI p1 in
  let p3 := setDefaultCitySelection p2 in
  let p4 := updateDistrictsForCity (value (citySelect p3)) p3 in
  let p5 :=
    updateAreasForDistrict (value (citySelect p4)) (value (areaSelect p4))
                           p4 in
  (p5, applyFilters p5).
End Startup.

(** ** Cards: [renderDoctors] and [renderCardFields] *)

(** What a card shows: title, specialty line, location line, address,
    phone with the target of its link and of the call button (absent when
    the button is disabled), opening hours, remark, and the target of the
    map button (absent when there is no button). *)
Record Card : Type := mkCard {
  card_title : string;
  card_meta : string;
  card_loc : string;
  card_address : string;
  card_phone : string;
  card_tel : option string;
  card_opening : string;
  card_remark : string;
  card_map : option string
}.

(** [Object.values(m)[0]] *)
Definition first_value (m : Obj) : option string := hd_error (values m).

(** The initial [cardLang] of a card:
    [availableLangs.includes(globalLang) ? globalLang
     : (availableLangs[0] || globalLang)]. *)
Definition initial_cardLang (globalLang : string) (d : Doctor) : string :=
  let availableLangs := keys (names d) in
  if existsb (String.eqb globalLang) availableLangs then globalLang
  else js_or (hd_error availableLangs) globalLang.

Section Cards.
Context {JS : JSString}.
Variable encodeURIComponent : string -> string.

(** The query of the address-based map link. *)
Definition addressQuery (ls : string) (d : Doctor) (cardLang : string)
  : string :=
  let addressText := or_str (tData ls d Field.address cardLang) (address d) in
  if truthy addressText then addressText
  else trim (join " " (filter truthy
                         [address d;
                          tData ls d Field.area cardLang;
                          tData ls d Field.district cardLang;
                          tData ls d Field.city cardLang])).

(** [renderCardFields] for the doctor [d] and the card language
    [cardLang]; [ls] is the value of the language selector. *)
Definition renderCardFields (ls : string) (d : Doctor) (cardLang : string)
  : Card :=
  let name :=
    or_str (tData ls d Field.name cardLang)
      (or_str (tData ls d Field.name "en")
         (js_or (first_value (names d)) "Unknown")) in
  let spec := or_str (tData ls d Field.specialty cardLang) "—" in
  let cityLabel := tData ls d Field.city cardLang in
  let districtLabel := tData ls d Field.district cardLang in
  let areaLabel := tData ls d Field.area cardLang in
  let addressText := or_str (tData ls d Field.address cardLang) (address d) in
  let phoneLabel :=
    or_str (tData ls d Field.phone cardLang)
      (js_or (first_value (phones d)) "") in
  let openingLabel :=
    or_str (tData ls d Field.opening cardLang)
      (js_or (first_value (openings d)) "") in
  let remarkText :=
    or_str (tData ls d Field.remark cardLang)
      (js_or (first_value (remarks d)) "") in
  let query := addressQuery ls d cardLang in
  {| card_title := name;
     card_meta := spec;
     card_loc := cityLabel ++ " • " ++ districtLabel ++ " • " ++ areaLabel;
     card_address := or_str addressText "—";
     card_phone := phoneLabel;
     card_tel :=
       if truthy phoneLabel
       then Some ("tel:" ++ formatPhoneForTel phoneLabel)%string
       else None;
     card_opening := or_str openingLabel "—";
     card_remark := or_str remarkText "—";
     card_map :=
       if truthy query then
         Some ("https://www.google.com/maps?&q="
               ++ encodeURIComponent query ++ "&z=19")%string
       else if truthy (lat d) && truthy (lng d) then
         Some ("https://www.google.com/maps/@" ++ encodeURIComponent (lat d)
               ++ "," ++ encodeURIComponent (lng d) ++ ",19z")%string
       else None |}.

(** The cards [renderDoctors] draws for the list [shown], each in its
    initial language. *)
Definition renderDoctors (p : Page) (shown : list Doctor) : list Card :=
  map (fun d =>
         renderCardFields (langSelect p) d (initial_cardLang (ui_lang p) d))
      shown.
End Cards.

(** ** Vocabulary of the statements, and sample data *)

(** The rows of [data] bearing identifier [i], in input order. *)
Definition rows_of (i : string) (data : list Raw.t) : list Raw.t :=
  filter (fun r => row_id r =? i) data.

(** What one row does to the doctor object of its identifier. *)
Definition apply_row (doc : Doctor) (item : Raw.t) : Doctor :=
  populate item (row_lang item) doc.

(** The doctor object a non-empty run of rows of identifier [i] builds. *)
Definition entity_of (i : string) (rows : list Raw.t) : option Doctor :=
  match rows with
  | [] => None
  | r :: _ => Some (fold_left apply_row rows (fresh_doctor i r))
  end.

(** The identifiers occurring in the input, each once. *)
Definition distinct_ids (data : list Raw.t) : list string :=
  nodup string_dec (map row_id data).

(** The first truthy value of a list of possibly missing strings, [''] when
    there is none. *)
Fixpoint first_truthy (xs : list (option string)) : string :=
  match xs with
  | [] => ""
  | x :: rest => if truthy_opt x then js_or x "" else first_truthy rest
  end.

(** The first row of [data] bearing identifier [i]. *)
Definition first_row (i : string) (data : list Raw.t) : option Raw.t :=
  find (fun r => row_id r =? i) data.

(** A two-row input whose first row has no latitude. *)
Definition late_lat_rows : list Raw.t :=
  [ Raw.mk (Some "1") (Some "en") (Some "Tan") None None None None None None
           None None None None None;
    Raw.mk (Some "1") (Some "zh-HK") None None None None None None None
           None None (Some "22.3") None None ].

(** The doctor [mergeByDocId] builds from [late_lat_rows]. *)
Definition late_lat_doctor : Doctor :=
  {| id := "1"; baseId := None;
     names := [("en", "Tan"); ("zh-HK", "")]; addresses := [];
     address := ""; phones := []; specialties := []; openings := [];
     remarks := []; areas := []; districts := []; cities := [];
     lat := "22.3"; lng := ""; cta_link := "" |}.

(** The row field each language-keyed map is fed from. *)
Definition raw_field (f : Field.t) (item : Raw.t) : option string :=
  match f with
  | Field.name => Raw.doc_name item
  | Field.address => Raw.doc_address item
  | Field.specialty => Raw.doc_cat_name item
  | Field.opening => Raw.doc_wh item
  | Field.area => Raw.area_name item
  | Field.district => Raw.district_name item
  | Field.city => Raw.city_name item
  | Field.phone => Raw.doc_tel_A item
  | Field.remark => Raw.doc_remark item
  end.

(** Digits, with at most one ["+"], and that one in front. *)
Definition plus_then_digits (s : string) : bool :=
  match s with
  | String "+" body => forallb is_digit (list_ascii_of_string body)
  | _ => forallb is_digit (list_ascii_of_string s)
  end.

(** The map holds a non-empty value under key [k]. *)
Definition held (m : Obj) (k : string) : bool := truthy_opt (lookup k m).

(** Rows of one identifier: an English row without a name, then a Chinese
    row with one. *)
Definition unnamed_en_rows : list Raw.t :=
  [ Raw.mk (Some "1") (Some "en") None None None None None None None None
           (Some "Hong Kong") None None None;
    Raw.mk (Some "1") (Some "zh-HK") (Some "陳") None None None None None
           None None (Some "香港") None None None ].

(** The doctor the grouped strategy builds from [unnamed_en_rows]. *)
Definition unnamed_en_doctor : Doctor :=
  {| id := "1"; baseId := None;
     names := [("en", ""); ("zh-HK", "陳")]; addresses := [];
     address := ""; phones := []; specialties := []; openings := [];
     remarks := []; areas := []; districts := [];
     cities := [("en", "Hong Kong"); ("zh-HK", "香港")];
     lat := ""; lng := ""; cta_link := "" |}.

(** [m.get(k) || d] *)
Definition get_or {V : Type} (m : Dict V) (k : string) (d : V) : V :=
  match lookup k m with
  | Some v => v
  | None => d
  end.

(** What the loop body does to the district map of the doctor's city. *)
Definition file_area (districtLabel areaLabel : string) (dm : Dict StrSet)
  : Dict StrSet :=
  let dm1 := if has districtLabel dm then dm else insert districtLabel [] dm in
  if truthy areaLabel then
    match lookup districtLabel dm1 with
    | Some s => insert districtLabel (set_add areaLabel s) dm1
    | None => dm1
    end
  else dm1.

(** The label the vocabulary builder resolves for attribute [f] of doctor
    [d]: [ls] is the value of the language selector, [l] the language
    passed to [tData]. *)
Definition label (ls l : string) (f : Field.t) (d : Doctor) : string :=
  tData ls d f l.

(** A doctor whose specialty and city exist in Chinese only. *)
Definition cardiologist_zh : Doctor :=
  {| id := "7"; baseId := None;
     names := [("zh-HK", "陳")]; addresses := [];
     address := ""; phones := []; specialties := [("zh-HK", "心臟科")];
     openings := []; remarks := []; areas := []; districts := [];
     cities := [("zh-HK", "香港")];
     lat := ""; lng := ""; cta_link := "" |}.

(** A page showing [ds] in language [ls], every selector holding only its
    placeholder and the text box empty. *)
Definition blank_page (ls : string) (ds : list Doctor) : Page :=
  {| searchInput := "";
     specialtySelect := reset_options "";
     citySelect := reset_options "";
     districtSelect := reset_options "";
     areaSelect := reset_options "";
     langSelect := ls;
     citiesMap := None;
     doctors := ds |}.

(** The Chinese page showing [unnamed_en_doctor], with the city selector on
    an option valued ["Hong Kong"]. *)
Definition hong_kong_page : Page :=
  {| searchInput := "";
     specialtySelect := reset_options "所有專科";
     citySelect := {| options := [mkOption "" "所有城市";
                                  mkOption "Hong Kong" "Hong Kong"];
                      selectedIndex := Some 1 |};
     districtSelect := reset_options "所有地區";
     areaSelect := reset_options "所有分區";
     langSelect := "zh-HK";
     citiesMap := None;
     doctors := [unnamed_en_doctor] |}.

(** The elements of a list, each once, in the order of first occurrence. *)
Fixpoint uniq (xs : list string) : list string :=
  match xs with
  | [] => []
  | x :: rest => x :: filter (fun y => negb (y =? x)) (uniq rest)
  end.

(** The last truthy value of a list of possibly missing strings. *)
Fixpoint last_truthy (xs : list (option string)) : option string :=
  match xs with
  | [] => None
  | x :: rest =>
      match last_truthy rest with
      | Some v => Some v
      | None => if truthy_opt x then x else None
      end
  end.

(** The rows of [data] bearing identifier [i] and language [l], in input
    order. *)
Definition rows_of_lang (i l : string) (data : list Raw.t) : list Raw.t :=
  filter (fun r => row_lang r =? l) (rows_of i data).

(** The string contains an underscore. *)
Fixpoint has_underscore (s : string) : bool :=
  match s with
  | EmptyString => false
  | String c rest => Ascii.eqb c "_" || has_underscore rest
  end.

(** What follows the last underscore of a string, the string itself when
    it has none. *)
Fixpoint after_last_underscore (s : string) : string :=
  match s with
  | EmptyString => EmptyString
  | String c rest =>
      if has_underscore rest then after_last_underscore rest
      else if Ascii.eqb c "_" then rest
      else s
  end.

(** The name a run of rows leaves under language [l], given what was there
    before. *)
Definition name_after (before : option string) (rows : list Raw.t)
  : option string :=
  match rows with
  | [] => before
  | _ :: _ =>
      Some (match last_truthy (map Raw.doc_name rows) with
            | Some v => v
            | None => js_or before ""
            end)
  end.

(** The seed fields of [e] are those of the first row of [data] whose
    [doc_id] is the key [k]. *)
Definition legacy_seeded (data : list Raw.t) (k : option string)
    (e : Legacy.Entity) : Prop :=
  Legacy.id e = k /\
  exists r,
    find (fun r => Legacy.key_eqb (Raw.doc_id r) k) data = Some r /\
    Legacy.address e = js_or (Raw.doc_address r) "" /\
    Legacy.lat e = js_or (Raw.doc_lat r) "" /\
    Legacy.lng e = js_or (Raw.doc_long r) "" /\
    Legacy.cta_link e = js_or (Raw.cta_link r) "".

Section Choices.
Context {JS : JSString}.

(** Two choices of a selector that the filter cannot tell apart: both
    empty, or both non-empty and equal up to case. *)
Definition same_choice (a b : string) : Prop :=
  (a = "" /\ b = "") \/
  (a <> "" /\ b <> "" /\ toLowerCase a = toLowerCase b).

(** The choice [b] is [a] or no choice at all. *)
Definition relaxed (a b : string) : Prop := b = "" \/ b = a.
End Choices.

(** The property names every object inherits from [Object.prototype]. *)
Definition object_prototype_names : list string :=
  ["constructor"; "__proto__"; "hasOwnProperty"; "isPrototypeOf";
   "propertyIsEnumerable"; "toLocaleString"; "toString"; "valueOf";
   "__defineGetter__"; "__defineSetter__"; "__lookupGetter__";
   "__lookupSetter__"].

(** The string consists of digits only. *)
Definition numeric_tag (s : string) : bool :=
  forallb is_digit (list_ascii_of_string s).

(** A language tag that is an ordinary property name: it has a character
    that is not a digit, so it is no array index and the object lists it
    in insertion order, and it is not inherited from [Object.prototype]. *)
Definition ordinary_tag (l : string) : bool :=
  negb (numeric_tag l) && negb (existsb (String.eqb l) object_prototype_names).

(** Two doctors of Hong Kong with a district and an area each, as the
    grouped strategy builds them from English rows. *)
Definition wan_chai_doctor : Doctor :=
  {| id := "21"; baseId := None;
     names := [("en", "Wong")]; addresses := [];
     address := ""; phones := []; specialties := [("en", "Dentist")];
     openings := []; remarks := []; areas := [("en", "Admiralty")];
     districts := [("en", "Wan Chai")];
     cities := [("en", "Hong Kong")];
     lat := ""; lng := ""; cta_link := "" |}.

Definition central_doctor : Doctor :=
  {| id := "22"; baseId := None;
     names := [("en", "Lee")]; addresses := [];
     address := ""; phones := []; specialties := [("en", "Cardiology")];
     openings := []; remarks := []; areas := [("en", "Soho")];
     districts := [("en", "Central")];
     cities := [("en", "Hong Kong")];
     lat := ""; lng := ""; cta_link := "" |}.

(** The English page of these two doctors after [populateFilters]. *)
Definition districts_page : Page :=
  populateFilters (blank_page "en" [wan_chai_doctor; central_doctor]).

(** * Properties *)

(** ** Insertion-ordered maps *)

Section DictFacts.
Variable V : Type.
Implicit Types (m : Dict V) (k : string) (v : V).

Lemma lookup_insert_eq m k v : lookup k (insert k v m) = Some v.
Proof.
  induction m as [|[k' v'] rest IH]; simpl.
  - now rewrite String.eqb_refl.
  - destruct (k =? k') eqn:E; simpl; rewrite E; auto.
Qed.

Lemma lookup_insert_ne m k k' v :
  k <> k' -> lookup k' (insert k v m) = lookup k' m.
Proof.
  intros Hne. induction m as [|[k0 v0] rest IH]; simpl.
  - destruct (k' =? k) eqn:E; auto.
    apply String.eqb_eq in E. congruence.
  - destruct (k =? k0) eqn:E; simpl.
    + apply String.eqb_eq in E. subst k0.
      destruct (k' =? k) eqn:E'; auto.
      apply String.eqb_eq in E'. congruence.
    + now rewrite IH.
Qed.

Lemma has_true_iff m k : has k m = true <-> In k (keys m).
Proof.
  unfold has. induction m as [|[k' v'] rest IH]; simpl.
  - split; [discriminate | tauto].
  - destruct (k =? k') eqn:E.
    + apply String.eqb_eq in E. subst. tauto.
    + apply String.eqb_neq in E. rewrite IH. split; [tauto|].
      intros [H|H]; [congruence | assumption].
Qed.

Lemma has_false_iff m k : has k m = false <-> ~ In k (keys m).
Proof.
  rewrite <- has_true_iff. destruct (has k m); split; congruence.
Qed.

Lemma has_lookup m k : has k m = true <-> exists v, lookup k m = Some v.
Proof.
  unfold has. destruct (lookup k m) as [v|].
  - split; eauto.
  - split; [discriminate | intros [v Hv]; discriminate].
Qed.

Lemma keys_insert m k v :
  keys (insert k v m) = if has k m then keys m else keys m ++ [k].
Proof.
  unfold has. induction m as [|[k' v'] rest IH]; simpl; auto.
  destruct (k =? k') eqn:E; simpl; auto.
  rewrite IH. now destruct (lookup k rest).
Qed.


Lemma lookup_In m k v : lookup k m = Some v -> In (k, v) m.
Proof.
  induction m as [|[k' v'] rest IH]; simpl; [discriminate|].
  destruct (k =? k') eqn:E.
  - apply String.eqb_eq in E. intros [= ->]. subst. now left.
  - auto.
Qed.

Lemma In_lookup m k v :
  NoDup (keys m) -> In (k, v) m -> lookup k m = Some v.
Proof.
  induction m as [|[k' v'] rest IH]; simpl; [tauto|].
  intros Hnd [H|H]; inversion Hnd as [|? ? Hnot Hnd']; subst.
  - injection H as -> ->. now rewrite String.eqb_refl.
  - destruct (k =? k') eqn:E; auto.
    apply String.eqb_eq in E. subst k'.
    exfalso. apply Hnot. change k with (fst (k, v)). now apply in_map.
Qed.

Lemma length_values m : List.length (values m) = List.length (keys m).
Proof. unfold values, keys. now rewrite !length_map. Qed.
End DictFacts.

(** ** Truthiness *)

Lemma truthy_true_iff s : truthy s = true <-> s <> "".
Proof.
  unfold truthy. destruct (String.eqb_spec s ""); simpl; split;
    congruence.
Qed.

Lemma truthy_false_iff s : truthy s = false <-> s = "".
Proof.
  unfold truthy. destruct (String.eqb_spec s ""); simpl; split;
    congruence.
Qed.

Lemma js_or_truthy x d :
  truthy_opt x = true -> exists s, x = Some s /\ s <> "" /\ js_or x d = s.
Proof.
  destruct x as [s|]; simpl; [|discriminate].
  intros H. exists s. rewrite H. apply truthy_true_iff in H. auto.
Qed.

Lemma js_or_falsy x d : truthy_opt x = false -> js_or x d = d.
Proof. destruct x as [s|]; simpl; auto. now intros ->. Qed.

(** ** The grouped normaliser as a fold per identifier *)

Lemma merge_map_snoc data item :
  merge_map (data ++ [item]) = merge_step (merge_map data) item.
Proof. unfold merge_map. now rewrite fold_left_app. Qed.

Lemma rows_of_snoc i data item :
  rows_of i (data ++ [item]) =
  rows_of i data ++ (if row_id item =? i then [item] else []).
Proof.
  unfold rows_of. rewrite filter_app. simpl.
  now destruct (row_id item =? i).
Qed.

Lemma lookup_merge_step_other m item i :
  row_id item <> i -> lookup i (merge_step m item) = lookup i m.
Proof.
  intros Hne. unfold merge_step.
  set (m1 := if has (row_id item) m then m else _).
  assert (H1 : lookup i m1 = lookup i m).
  { subst m1. destruct (has (row_id item) m); auto.
    now apply lookup_insert_ne. }
  destruct (lookup (row_id item) m1); auto.
  now rewrite lookup_insert_ne.
Qed.

Lemma lookup_merge_step_same m item :
  lookup (row_id item) (merge_step m item) =
  Some (apply_row
          (match lookup (row_id item) m with
           | Some doc => doc
           | None => fresh_doctor (row_id item) item
           end) item).
Proof.
  unfold merge_step, has.
  destruct (lookup (row_id item) m) as [doc|] eqn:E.
  - rewrite E. now rewrite lookup_insert_eq.
  - rewrite lookup_insert_eq. now rewrite lookup_insert_eq.
Qed.

Lemma lookup_merge_map data i :
  lookup i (merge_map data) = entity_of i (rows_of i data).
Proof.
  induction data as [|item data IH] using rev_ind; [reflexivity|].
  rewrite merge_map_snoc, rows_of_snoc.
  destruct (String.eqb_spec (row_id item) i) as [<-|Hne].
  - rewrite lookup_merge_step_same, IH.
    destruct (rows_of (row_id item) data) as [|r rs]; simpl; [reflexivity|].
    now rewrite fold_left_app.
  - rewrite app_nil_r. now rewrite lookup_merge_step_other.
Qed.

Lemma keys_merge_step m item :
  keys (merge_step m item) =
  if has (row_id item) m then keys m else keys m ++ [row_id item].
Proof.
  unfold merge_step.
  destruct (has (row_id item) m) eqn:Hhas.
  - destruct (lookup (row_id item) m) eqn:E; auto.
    now rewrite keys_insert, Hhas.
  - rewrite lookup_insert_eq, keys_insert.
    assert (H : has (row_id item) (insert (row_id item)
                  (fresh_doctor (row_id item) item) m) = true).
    { apply has_lookup. eexists. apply lookup_insert_eq. }
    rewrite H. now rewrite keys_insert, Hhas.
Qed.

Lemma keys_merge_map_NoDup data : NoDup (keys (merge_map data)).
Proof.
  induction data as [|item data IH] using rev_ind; [constructor|].
  rewrite merge_map_snoc, keys_merge_step.
  destruct (has (row_id item) (merge_map data)) eqn:E; auto.
  apply has_false_iff in E.
  apply NoDup_app. repeat split; auto.
  - constructor; [intros []|constructor].
  - intros a Ha [<-|[]]. contradiction.
Qed.

Lemma keys_merge_map_In data i :
  In i (keys (merge_map data)) <-> In i (map row_id data).
Proof.
  induction data as [|item data IH] using rev_ind; [reflexivity|].
  rewrite merge_map_snoc, keys_merge_step, map_app, in_app_iff. simpl.
  destruct (has (row_id item) (merge_map data)) eqn:E.
  - apply has_true_iff in E. rewrite IH in *. intuition (subst; auto).
  - rewrite in_app_iff, IH. simpl. tauto.
Qed.

(** Every produced doctor is the fold of the rows of its identifier. *)
Lemma mergeByDocId_entity {data e} :
  In e (mergeByDocId data) ->
  exists i, In i (map row_id data) /\
            entity_of i (rows_of i data) = Some e.
Proof.
  unfold mergeByDocId, values. intros H.
  apply in_map_iff in H as [[i e'] [Heq Hin]]. simpl in Heq. subst e'.
  exists i. split.
  - apply keys_merge_map_In. unfold keys.
    change i with (fst (i, e)). now apply in_map.
  - rewrite <- lookup_merge_map. apply In_lookup; auto.
    apply keys_merge_map_NoDup.
Qed.

Lemma id_fold_apply_row rows doc :
  id (fold_left apply_row rows doc) = id doc.
Proof.
  revert doc. induction rows as [|r rs IH]; intros doc; simpl; auto.
  now rewrite IH.
Qed.

Lemma entity_of_id {i rows e} : entity_of i rows = Some e -> id e = i.
Proof.
  destruct rows as [|r rs]; simpl; [discriminate|].
  intros [= <-]. now rewrite id_fold_apply_row.
Qed.

(** ** Output size of the normaliser *)

Lemma length_map_idx {A B : Type} (f : nat -> A -> B) start xs :
  List.length (map_idx f start xs) = List.length xs.
Proof.
  revert start. induction xs as [|x rest IH]; intros start; simpl; auto.
Qed.

Lemma length_mergeByDocId data :
  List.length (mergeByDocId data) = List.length (distinct_ids data).
Proof.
  unfold mergeByDocId. rewrite length_values.
  apply Permutation_length, NoDup_Permutation.
  - apply keys_merge_map_NoDup.
  - apply NoDup_nodup.
  - intros i. unfold distinct_ids. rewrite nodup_In.
    apply keys_merge_map_In.
Qed.

(** C7. The strategy flag fixes the size of the normaliser's output: the
    grouped strategy ([showAllRecords = false]) produces as many doctors as
    there are distinct identifiers in the input, a missing identifier
    counting as the empty one; the per-row strategy produces one doctor per
    input row. *)
Theorem normalize_output_size (data : list Raw.t) :
  List.length (normalize false data) = List.length (distinct_ids data) /\
  List.length (normalize true data) = List.length data.
Proof.
  split; simpl.
  - apply length_mergeByDocId.
  - apply length_map_idx.
Qed.

(** ** Seed fields in the grouped strategy *)

Lemma address_fold_apply_row rows doc :
  address (fold_left apply_row rows doc) = address doc.
Proof.
  revert doc. induction rows as [|r rs IH]; intros doc; simpl; auto.
  now rewrite IH.
Qed.

Lemma cta_link_fold_apply_row rows doc :
  cta_link (fold_left apply_row rows doc) = cta_link doc.
Proof.
  revert doc. induction rows as [|r rs IH]; intros doc; simpl; auto.
  now rewrite IH.
Qed.

Lemma keep_or_fill_spec cur x :
  keep_or_fill cur x =
  if truthy cur then cur else if truthy_opt x then js_or x "" else cur.
Proof. unfold keep_or_fill. now destruct (truthy cur), (truthy_opt x). Qed.

Lemma truthy_js_or x : truthy_opt x = true -> truthy (js_or x "") = true.
Proof.
  intros H. destruct (js_or_truthy x "" H) as (s & _ & Hs & ->).
  now apply truthy_true_iff.
Qed.

(** A coordinate kept by [if (!doc.lat && item.doc_lat) doc.lat = ...]
    along a run of rows. *)
Lemma coord_fold (get : Doctor -> string) (src : Raw.t -> option string) :
  (forall doc r, get (apply_row doc r) = keep_or_fill (get doc) (src r)) ->
  forall rows doc,
    get (fold_left apply_row rows doc) =
    if truthy (get doc) then get doc else first_truthy (map src rows).
Proof.
  intros Hstep rows. induction rows as [|r rs IH]; intros doc; simpl.
  - destruct (truthy (get doc)) eqn:E; auto.
    now apply truthy_false_iff in E.
  - rewrite IH, Hstep, keep_or_fill_spec.
    destruct (truthy (get doc)) eqn:E; [now rewrite E|].
    destruct (truthy_opt (src r)) eqn:Er; [|now rewrite E].
    now rewrite (truthy_js_or _ Er).
Qed.

Lemma coord_entity (get : Doctor -> string) (src : Raw.t -> option string)
    i r rs :
  (forall doc r, get (apply_row doc r) = keep_or_fill (get doc) (src r)) ->
  get (fresh_doctor i r) = js_or (src r) "" ->
  get (fold_left apply_row (r :: rs) (fresh_doctor i r)) =
  first_truthy (map src (r :: rs)).
Proof.
  intros Hstep Hfresh. rewrite (coord_fold get src Hstep), Hfresh.
  simpl. destruct (truthy_opt (src r)) eqn:E.
  - now rewrite (truthy_js_or _ E).
  - rewrite (js_or_falsy _ _ E). reflexivity.
Qed.

Lemma find_hd_filter {A : Type} (f : A -> bool) xs :
  find f xs = hd_error (filter f xs).
Proof.
  induction xs as [|x rest IH]; simpl; auto.
  now destruct (f x).
Qed.

Lemma first_truthy_app xs ys :
  first_truthy (xs ++ ys) =
  if truthy (first_truthy xs) then first_truthy xs else first_truthy ys.
Proof.
  induction xs as [|x rest IH]; simpl; auto.
  destruct (truthy_opt x) eqn:E; auto.
  now rewrite (truthy_js_or _ E).
Qed.

(** The seed fields of the doctor built from the rows [r :: rs]. *)
Lemma entity_of_seed {i r rs e} :
  entity_of i (r :: rs) = Some e ->
  address e = js_or (Raw.doc_address r) "" /\
  cta_link e = js_or (Raw.cta_link r) "" /\
  lat e = first_truthy (map Raw.doc_lat (r :: rs)) /\
  lng e = first_truthy (map Raw.doc_long (r :: rs)).
Proof.
  unfold entity_of. intros [= <-]. repeat split.
  - now rewrite address_fold_apply_row.
  - now rewrite cta_link_fold_apply_row.
  - now apply (coord_entity lat Raw.doc_lat).
  - now apply (coord_entity lng Raw.doc_long).
Qed.

Lemma rows_of_app i data more :
  rows_of i (data ++ more) = rows_of i data ++ rows_of i more.
Proof. apply filter_app. Qed.

(** Rows appended after a run leave its seed fields alone. *)
Lemma entity_of_frame {i r rs more e e'} :
  entity_of i (r :: rs) = Some e ->
  entity_of i ((r :: rs) ++ more) = Some e' ->
  address e' = address e /\ cta_link e' = cta_link e /\
  (lat e <> "" -> lat e' = lat e) /\
  (lng e <> "" -> lng e' = lng e).
Proof.
  intros He He'.
  destruct (entity_of_seed He) as (Ha & Hc & Hlat & Hlng).
  rewrite <- app_comm_cons in He'.
  destruct (entity_of_seed He') as (Ha' & Hc' & Hlat' & Hlng').
  rewrite app_comm_cons, map_app, first_truthy_app in Hlat', Hlng'.
  rewrite <- Hlat in Hlat'. rewrite <- Hlng in Hlng'.
  repeat split; try congruence.
  - intros Hne. apply truthy_true_iff in Hne. now rewrite Hne in Hlat'.
  - intros Hne. apply truthy_true_iff in Hne. now rewrite Hne in Hlng'.
Qed.

(** C4, as stated, fails: the second row of [late_lat_rows] supplies the
    latitude that the first row lacks, so the doctor's latitude is not the
    first row's. *)
Lemma seed_latitude_not_first_row :
  ~ (forall e r,
       In e (mergeByDocId late_lat_rows) ->
       first_row (id e) late_lat_rows = Some r ->
       lat e = js_or (Raw.doc_lat r) "").
Proof.
  intros H.
  specialize (H (hd (fresh_doctor "" Raw.empty) (mergeByDocId late_lat_rows))
                (hd Raw.empty late_lat_rows)).
  vm_compute in H. specialize (H (or_introl eq_refl) eq_refl).
  discriminate H.
Qed.

(** C4, amended. In the grouped strategy the fallback address and the
    action link of a doctor are those of the first row bearing its
    identifier, and no later row changes them. Latitude and longitude are
    the first non-empty value among the rows bearing the identifier, in
    input order: the first row's value when it has one, and once non-empty
    they are not changed by later rows. *)
Theorem grouped_seed_fields (data : list Raw.t) (e : Doctor)
    (He : In e (mergeByDocId data)) :
  exists r,
    first_row (id e) data = Some r /\
    address e = js_or (Raw.doc_address r) "" /\
    cta_link e = js_or (Raw.cta_link r) "" /\
    lat e = first_truthy (map Raw.doc_lat (rows_of (id e) data)) /\
    lng e = first_truthy (map Raw.doc_long (rows_of (id e) data)) /\
    (truthy_opt (Raw.doc_lat r) = true -> lat e = js_or (Raw.doc_lat r) "") /\
    (truthy_opt (Raw.doc_long r) = true ->
     lng e = js_or (Raw.doc_long r) "") /\
    (forall more e',
        In e' (mergeByDocId (data ++ more)) -> id e' = id e ->
        address e' = address e /\ cta_link e' = cta_link e /\
        (lat e <> "" -> lat e' = lat e) /\
        (lng e <> "" -> lng e' = lng e)).
Proof.
  destruct (mergeByDocId_entity He) as (i & _ & Hent).
  pose proof (entity_of_id Hent) as Hid. rewrite Hid.
  destruct (rows_of i data) as [|r rs] eqn:Hrows; [discriminate|].
  destruct (entity_of_seed Hent) as (Ha & Hc & Hlat & Hlng).
  exists r. split; [|split; [|split; [|split; [|split; [|split; [|split]]]]]];
    auto.
  - unfold first_row. rewrite find_hd_filter. fold (rows_of i data).
    now rewrite Hrows.
  - intros Ht. rewrite Hlat. simpl. now rewrite Ht.
  - intros Ht. rewrite Hlng. simpl. now rewrite Ht.
  - intros more e' He' Hid'.
    destruct (mergeByDocId_entity He') as (i' & _ & Hent').
    pose proof (entity_of_id Hent') as Hi'.
    assert (Heq : i' = i) by congruence.
    rewrite Heq, rows_of_app, Hrows in Hent'.
    apply (entity_of_frame Hent Hent').
Qed.

(** The seed fields of the doctor built from [late_lat_rows]. *)
Lemma grouped_seed_fields_witness :
  In late_lat_doctor (mergeByDocId late_lat_rows) /\
  exists r,
    first_row "1" late_lat_rows = Some r /\
    address late_lat_doctor = js_or (Raw.doc_address r) "" /\
    cta_link late_lat_doctor = js_or (Raw.cta_link r) "" /\
    lat late_lat_doctor =
      first_truthy (map Raw.doc_lat (rows_of "1" late_lat_rows)) /\
    lng late_lat_doctor =
      first_truthy (map Raw.doc_long (rows_of "1" late_lat_rows)) /\
    (truthy_opt (Raw.doc_lat r) = true ->
     lat late_lat_doctor = js_or (Raw.doc_lat r) "") /\
    (truthy_opt (Raw.doc_long r) = true ->
     lng late_lat_doctor = js_or (Raw.doc_long r) "") /\
    (forall more e',
        In e' (mergeByDocId (late_lat_rows ++ more)) ->
        id e' = id late_lat_doctor ->
        address e' = address late_lat_doctor /\
        cta_link e' = cta_link late_lat_doctor /\
        (lat late_lat_doctor <> "" -> lat e' = lat late_lat_doctor) /\
        (lng late_lat_doctor <> "" -> lng e' = lng late_lat_doctor)).
Proof.
  split.
  - vm_compute. left. reflexivity.
  - apply (grouped_seed_fields late_lat_rows late_lat_doctor).
    vm_compute. left. reflexivity.
Defined.

(** ** What the language-keyed maps hold *)







Lemma In_map_idx {A B : Type} (f : nat -> A -> B) start xs y :
  In y (map_idx f start xs) ->
  exists n x, nth_error xs n = Some x /\ y = f (start + n) x.
Proof.
  revert start. induction xs as [|x rest IH]; intros start; simpl; [tauto|].
  intros [<-|H].
  - exists 0, x. rewrite Nat.add_0_r. auto.
  - apply IH in H as (n & x' & Hn & ->).
    exists (S n), x'. rewrite Nat.add_succ_r. auto.
Qed.

Lemma plural_row_doctor f idx r :
  plural f (row_doctor idx r) = [(row_lang r, js_or (raw_field f r) "")].
Proof. now destruct f. Qed.




(** ** Telephone links *)

Lemma replace_non_tel_filter s :
  list_ascii_of_string (replace_non_tel s) =
  filter tel_char (list_ascii_of_string s).
Proof.
  induction s as [|c rest IH]; simpl; auto.
  destruct (tel_char c); simpl; now rewrite IH.
Qed.

(** C6, as stated, fails: a ["+"] between two digits is kept where it
    stands. *)
Lemma inner_plus_survives :
  formatPhoneForTel "1+2" = "1+2" /\
  plus_then_digits (formatPhoneForTel "1+2") = false.
Proof. split; reflexivity. Qed.

(** C6, amended. The telephone link value is the phone string with every
    character other than a digit or ["+"] removed: what remains is the
    digits and the ["+"] signs of the input, all of them, wherever they
    stand and in their order. *)
Theorem formatPhoneForTel_keeps_plus_and_digits (phone : string) :
  list_ascii_of_string (formatPhoneForTel phone) =
    filter tel_char (list_ascii_of_string phone) /\
  Forall (fun c => c = "+"%char \/ is_digit c = true)
         (list_ascii_of_string (formatPhoneForTel phone)).
Proof.
  assert (H : list_ascii_of_string (formatPhoneForTel phone) =
              filter tel_char (list_ascii_of_string phone)).
  { unfold formatPhoneForTel. destruct (truthy phone) eqn:E; simpl.
    - apply replace_non_tel_filter.
    - apply truthy_false_iff in E. now subst. }
  split; auto. rewrite H. apply Forall_forall. intros c Hc.
  apply filter_In in Hc as [_ Hc]. unfold tel_char in Hc.
  apply orb_true_iff in Hc as [Hc|Hc]; auto.
  left. now apply Ascii.eqb_eq.
Qed.

(** ** Label resolution *)

Lemma held_true m k v : lookup k m = Some v -> v <> "" -> held m k = true.
Proof.
  unfold held. intros -> H. simpl. now apply truthy_true_iff.
Qed.

Lemma js_or_held m k v d :
  lookup k m = Some v -> v <> "" -> js_or (lookup k m) d = v.
Proof.
  intros -> H. simpl. apply truthy_true_iff in H. now rewrite H.
Qed.

Lemma effective_lang_given ls l : l <> "" -> effective_lang ls l = l.
Proof.
  intros H. unfold effective_lang. apply truthy_true_iff in H.
  now rewrite H.
Qed.

Lemma tData_resolve ls doc f l :
  l <> "" -> tData ls doc f l = resolve (plural f doc) l.
Proof. intros H. unfold tData. now rewrite effective_lang_given. Qed.

Lemma unnamed_en_doctor_built :
  mergeByDocId unnamed_en_rows = [unnamed_en_doctor].
Proof. reflexivity. Qed.




Lemma js_or_nonempty x d : d <> "" -> js_or x d <> "".
Proof.
  intros Hd. destruct x as [s|]; simpl; auto.
  destruct (truthy s) eqn:E; auto. now apply truthy_true_iff.
Qed.

Lemma js_or_held_nonempty m k d : held m k = true -> js_or (lookup k m) d <> "".
Proof.
  unfold held. intros H.
  destruct (js_or_truthy (lookup k m) d H) as (s & _ & Hs & ->). exact Hs.
Qed.

(** ** The filter engine *)

Section FilterFacts.
Context {JS : JSString}.

Lemma some_value_is_iff m sel :
  some_value_is m sel = true <-> matches_any_language m sel.
Proof.
  unfold some_value_is, matches_any_language, values.
  rewrite existsb_exists. split.
  - intros (c & Hc & Heq). apply String.eqb_eq in Heq.
    apply in_map_iff in Hc as (v & <- & Hv).
    apply in_map_iff in Hv as ([l v'] & <- & Hin).
    exists l, v'. auto.
  - intros (l & v & Hin & Heq). exists (toLowerCase v). split.
    + apply in_map. change v with (snd (l, v)). now apply in_map.
    + now apply String.eqb_eq.
Qed.

Lemma guard_iff (sel : string) (b : bool) (P : Prop) :
  (b = true <-> P) ->
  (truthy sel && negb b = false <-> (sel <> "" -> P)).
Proof.
  intros Hb. destruct (truthy sel) eqn:E; simpl.
  - apply truthy_true_iff in E. rewrite negb_false_iff, Hb. tauto.
  - apply truthy_false_iff in E. subst. tauto.
Qed.

Lemma passes_iff q specialty city district area d :
  passes q specialty city district area d = true <->
  query_passes q d /\
  (specialty <> "" -> matches_any_language (specialties d) specialty) /\
  (city <> "" -> matches_any_language (cities d) city) /\
  (district <> "" -> matches_any_language (districts d) district) /\
  (area <> "" -> matches_any_language (areas d) area).
Proof.
  unfold passes, query_passes.
  pose proof (guard_iff specialty _ _ (some_value_is_iff (specialties d) specialty)) as Hs.
  pose proof (guard_iff city _ _ (some_value_is_iff (cities d) city)) as Hc.
  pose proof (guard_iff district _ _ (some_value_is_iff (districts d) district)) as Hd.
  pose proof (guard_iff area _ _ (some_value_is_iff (areas d) area)) as Ha.
  assert (Hq : truthy q &&
               negb (includes (toLowerCase (join " " (values (names d)))) q)
               = false <->
               (q = "" \/
                includes (toLowerCase (join " " (values (names d)))) q = true)).
  { destruct (truthy q) eqn:E; simpl.
    - apply truthy_true_iff in E. rewrite negb_false_iff. tauto.
    - apply truthy_false_iff in E. tauto. }
  destruct (truthy q && negb _) eqn:E1.
  { split; [discriminate|]. intros (H & _). apply Hq in H. discriminate. }
  destruct (truthy specialty && negb _) eqn:E2.
  { split; [discriminate|]. intros (_ & H & _). apply Hs in H. discriminate. }
  destruct (truthy city && negb _) eqn:E3.
  { split; [discriminate|]. intros (_ & _ & H & _). apply Hc in H.
    discriminate. }
  destruct (truthy district && negb _) eqn:E4.
  { split; [discriminate|]. intros (_ & _ & _ & H & _). apply Hd in H.
    discriminate. }
  destruct (truthy area && negb _) eqn:E5.
  { split; [discriminate|]. intros (_ & _ & _ & _ & H). apply Ha in H.
    discriminate. }
  split; auto. intros _.
  repeat split; [now apply Hq | now apply Hs | now apply Hc | now apply Hd
                | now apply Ha].
Qed.

(** With only the city selector set, a doctor of the collection is shown as
    soon as one of its city labels, under a language other than the
    displayed one, equals the choice up to case. *)
Lemma label_of_other_language_matches (p : Page) (d : Doctor) (l v : string) :
  In d (doctors p) ->
  searchInput p = "" ->
  value (specialtySelect p) = "" ->
  value (districtSelect p) = "" ->
  value (areaSelect p) = "" ->
  In (l, v) (cities d) -> l <> ui_lang p ->
  toLowerCase v = toLowerCase (value (citySelect p)) ->
  In d (applyFilters p).
Proof.
  intros Hd Hq Hs Hdi Ha Hin _ Heq.
  unfold applyFilters. rewrite filter_In, passes_iff.
  rewrite Hq, Hs, Hdi, Ha, trim_empty, toLowerCase_empty.
  split; auto. split; [now left|].
  repeat split; try congruence.
  intros _. exists l, v. auto.
Qed.

(** C1. A doctor is in the filtered list exactly when it is in the
    collection, the text query passes, and for every categorical selector
    with a non-empty choice the doctor's map for that category has an
    entry, under any language, equal to the chosen label up to case; with
    the text query and the other selectors empty, the doctor is shown if
    and only if the one chosen category has such an entry. The display
    language does not occur in the condition, so a label stored only under
    another language matches. *)
Theorem filter_matches_any_language (p : Page) (d : Doctor) :
  In d (applyFilters p) <->
  In d (doctors p) /\
  query_passes (toLowerCase (trim (searchInput p))) d /\
  (value (specialtySelect p) <> "" ->
   matches_any_language (specialties d) (value (specialtySelect p))) /\
  (value (citySelect p) <> "" ->
   matches_any_language (cities d) (value (citySelect p))) /\
  (value (districtSelect p) <> "" ->
   matches_any_language (districts d) (value (districtSelect p))) /\
  (value (areaSelect p) <> "" ->
   matches_any_language (areas d) (value (areaSelect p))).
Proof.
  unfold applyFilters. rewrite filter_In, passes_iff. reflexivity.
Qed.

(** C8. With an empty text query and the four selectors on their empty
    choice, the filtered list is the doctor collection itself, in its
    order. *)
Theorem empty_selection_is_identity (p : Page)
    (Hq : searchInput p = "")
    (Hspecialty : value (specialtySelect p) = "")
    (Hcity : value (citySelect p) = "")
    (Hdistrict : value (districtSelect p) = "")
    (Harea : value (areaSelect p) = "") :
  applyFilters p = doctors p.
Proof.
  unfold applyFilters.
  rewrite Hq, Hspecialty, Hcity, Hdistrict, Harea, trim_empty,
    toLowerCase_empty.
  induction (doctors p) as [|d rest IH]; simpl; auto.
  now rewrite IH.
Qed.

(** ** The selector cascade *)

Lemma append_options_keeps_first os : forall sel o,
  selectedIndex sel = Some 0 ->
  nth_error (options sel) 0 = Some o ->
  value (append_options sel os) = opt_value o.
Proof.
  unfold append_options.
  induction os as [|x rest IH]; intros sel o Hsel Hnth; simpl.
  - unfold value. now rewrite Hsel, Hnth.
  - apply IH; simpl.
    + now rewrite Hsel.
    + destruct (options sel); [discriminate | exact Hnth].
Qed.

Lemma value_reset_then_append label os :
  value (append_options (reset_options label) os) = "".
Proof.
  now apply (append_options_keeps_first os _ (mkOption "" label)).
Qed.

Lemma updateDistrictsForCity_resets city p :
  value (districtSelect (updateDistrictsForCity city p)) = "" /\
  value (areaSelect (updateDistrictsForCity city p)) = "" /\
  searchInput (updateDistrictsForCity city p) = searchInput p /\
  specialtySelect (updateDistrictsForCity city p) = specialtySelect p /\
  citySelect (updateDistrictsForCity city p) = citySelect p /\
  doctors (updateDistrictsForCity city p) = doctors p.
Proof.
  unfold updateDistrictsForCity.
  destruct (citiesMap p) as [cm|]; [destruct (has city cm)|]; simpl;
    repeat split; apply value_reset_then_append.
Qed.

Lemma updateAreasForDistrict_resets city district p :
  value (areaSelect (updateAreasForDistrict city district p)) = "" /\
  districtSelect (updateAreasForDistrict city district p) = districtSelect p /\
  searchInput (updateAreasForDistrict city district p) = searchInput p /\
  specialtySelect (updateAreasForDistrict city district p)
    = specialtySelect p /\
  citySelect (updateAreasForDistrict city district p) = citySelect p /\
  doctors (updateAreasForDistrict city district p) = doctors p.
Proof.
  unfold updateAreasForDistrict.
  destruct (citiesMap p) as [cm|]; [destruct (has city cm)|]; simpl;
    repeat split; apply value_reset_then_append.
Qed.

Lemma on_city_change_resets v p :
  value (districtSelect (fst (on_city_change v p))) = "" /\
  value (areaSelect (fst (on_city_change v p))) = "".
Proof.
  unfold on_city_change. cbv beta zeta iota delta [fst].
  set (p0 := with_citySelect _ p).
  destruct (updateAreasForDistrict_resets (value (citySelect p0)) ""
              (updateDistrictsForCity (value (citySelect p0)) p0))
    as (Ha & Hd & _).
  destruct (updateDistrictsForCity_resets (value (citySelect p0)) p0)
    as (Hd' & _).
  split; [now rewrite Hd | exact Ha].
Qed.

(** C5. The listener of the city selector leaves the district and area
    selectors on their empty choice, and the list it renders is filtered
    with both empty; the listener of the district selector does the same
    for the area selector. So after choosing city [x], district [y], then
    city [z], district and area are empty. *)
Theorem cascade_reset (p : Page) :
  (forall v,
      let (p', shown) := on_city_change v p in
      value (districtSelect p') = "" /\ value (areaSelect p') = "" /\
      shown = filter (passes (toLowerCase (trim (searchInput p)))
                        (value (specialtySelect p))
                        (value (citySelect p')) "" "")
                     (doctors p)) /\
  (forall v,
      let (p', shown) := on_district_change v p in
      value (areaSelect p') = "" /\
      shown = filter (passes (toLowerCase (trim (searchInput p)))
                        (value (specialtySelect p))
                        (value (citySelect p))
                        (value (districtSelect p')) "")
                     (doctors p)) /\
  (forall x y z,
      let p1 := fst (on_city_change x p) in
      let p2 := fst (on_district_change y p1) in
      let p3 := fst (on_city_change z p2) in
      value (districtSelect p3) = "" /\ value (areaSelect p3) = "").
Proof.
  split; [|split].
  - intros v.
    destruct (on_city_change_resets v p) as (Hd & Ha).
    unfold on_city_change in *. cbv beta zeta iota delta [fst] in *.
    set (p0 := with_citySelect _ p) in *.
    set (p1 := updateDistrictsForCity _ p0) in *.
    set (p2 := updateAreasForDistrict _ "" p1) in *.
    repeat split; auto.
    unfold applyFilters. rewrite Hd, Ha.
    destruct (updateAreasForDistrict_resets (value (citySelect p0)) "" p1)
      as (_ & _ & Hq2 & Hs2 & Hc2 & Hdoc2).
    destruct (updateDistrictsForCity_resets (value (citySelect p0)) p0)
      as (_ & _ & Hq1 & Hs1 & Hc1 & Hdoc1).
    fold p1 in Hq1, Hs1, Hc1, Hdoc1. fold p2 in Hq2, Hs2, Hc2, Hdoc2.
    rewrite Hq2, Hs2, Hdoc2, Hq1, Hs1, Hdoc1. reflexivity.
  - intros v. unfold on_district_change. cbv beta zeta.
    set (p0 := with_districtSelect _ p).
    destruct (updateAreasForDistrict_resets (value (citySelect p0))
                (value (districtSelect p0)) p0)
      as (Ha & Hd & Hq & Hs & Hc & Hdoc).
    split; auto.
    unfold applyFilters. rewrite Ha, Hd, Hq, Hs, Hc, Hdoc. reflexivity.
  - intros x y z p1 p2 p3. apply on_city_change_resets.
Qed.
End FilterFacts.

(** ** The vocabulary *)

Lemma set_has_iff x s : set_has x s = true <-> In x s.
Proof.
  unfold set_has. rewrite existsb_exists. split.
  - intros (y & Hy & E). apply String.eqb_eq in E. now subst.
  - intros H. exists x. split; auto. apply String.eqb_refl.
Qed.

Lemma set_add_In x y s : In x (set_add y s) <-> x = y \/ In x s.
Proof.
  unfold set_add. destruct (set_has y s) eqn:E.
  - apply set_has_iff in E. intuition (subst; auto).
  - rewrite in_app_iff. simpl. intuition.
Qed.

Lemma lookup_touch {V : Type} (k : string) (v0 : V) m k' :
  lookup k' (if has k m then m else insert k v0 m) =
  if k =? k' then Some (get_or m k v0) else lookup k' m.
Proof.
  unfold has, get_or. destruct (String.eqb_spec k k') as [<-|Hne].
  - destruct (lookup k m) eqn:E; auto. apply lookup_insert_eq.
  - destruct (lookup k m); auto. now apply lookup_insert_ne.
Qed.

Lemma lookup_file_area di a dm di' :
  lookup di' (file_area di a dm) =
  if di =? di' then
    Some (if truthy a then set_add a (get_or dm di []) else get_or dm di [])
  else lookup di' dm.
Proof.
  unfold file_area.
  set (dm1 := if has di dm then dm else insert di [] dm).
  assert (H1 : forall k, lookup k dm1 =
                         if di =? k then Some (get_or dm di []) else lookup k dm).
  { intros k. apply lookup_touch. }
  destruct (truthy a).
  - rewrite (H1 di), String.eqb_refl.
    destruct (String.eqb_spec di di') as [<-|Hne].
    + apply lookup_insert_eq.
    + rewrite lookup_insert_ne by assumption. rewrite H1.
      apply String.eqb_neq in Hne. now rewrite Hne.
  - apply H1.
Qed.

Lemma voc_cities_step ls l acc d :
  voc_cities (vocab_step ls l acc d) =
  let c := tData ls d Field.city l in
  let cities1 := if has c (voc_cities acc) then voc_cities acc
                 else insert c [] (voc_cities acc) in
  insert c (file_area (tData ls d Field.district l) (tData ls d Field.area l)
                      (get_or cities1 c []))
         cities1.
Proof. reflexivity. Qed.

Lemma lookup_voc_cities_step ls l acc d c' :
  lookup c' (voc_cities (vocab_step ls l acc d)) =
  if tData ls d Field.city l =? c' then
    Some (file_area (tData ls d Field.district l) (tData ls d Field.area l)
                    (get_or (voc_cities acc) (tData ls d Field.city l) []))
  else lookup c' (voc_cities acc).
Proof.
  rewrite voc_cities_step. cbv zeta.
  set (c := tData ls d Field.city l).
  set (cities1 := if has c (voc_cities acc) then voc_cities acc else _).
  assert (H1 : forall k, lookup k cities1 =
                         if c =? k then Some (get_or (voc_cities acc) c [])
                         else lookup k (voc_cities acc)).
  { intros k. apply lookup_touch. }
  assert (Hg : get_or cities1 c [] = get_or (voc_cities acc) c []).
  { unfold get_or at 1. now rewrite H1, String.eqb_refl. }
  rewrite Hg.
  destruct (String.eqb_spec c c') as [<-|Hne].
  - apply lookup_insert_eq.
  - rewrite lookup_insert_ne by assumption. rewrite H1.
    apply String.eqb_neq in Hne. now rewrite Hne.
Qed.

Lemma build_vocabulary_snoc ls l ds d :
  build_vocabulary ls l (ds ++ [d]) =
  vocab_step ls l (build_vocabulary ls l ds) d.
Proof. unfold build_vocabulary. now rewrite fold_left_app. Qed.

Section VocabularyFacts.
Variables ls l : string.

Lemma specialties_built ds s :
  In s (voc_specialties (build_vocabulary ls l ds)) <->
  s <> "" /\ exists d, In d ds /\ label ls l Field.specialty d = s.
Proof.
  induction ds as [|d ds IH] using rev_ind.
  - simpl. split; [tauto|]. intros (_ & d & [] & _).
  - rewrite build_vocabulary_snoc. unfold vocab_step. simpl.
    fold (label ls l Field.specialty d).
    destruct (truthy (label ls l Field.specialty d)) eqn:E.
    + apply truthy_true_iff in E. rewrite set_add_In, IH. split.
      * intros [->|(Hs & d' & Hin & Hd')].
        -- split; auto. exists d. split; auto. apply in_or_app. simpl. auto.
        -- split; auto. exists d'. split; auto. apply in_or_app. auto.
      * intros (Hs & d' & Hin & Hd'). apply in_app_or in Hin as [Hin|[<-|[]]].
        -- right. split; auto. exists d'. auto.
        -- now left.
    + apply truthy_false_iff in E. rewrite IH. split.
      * intros (Hs & d' & Hin & Hd'). split; auto. exists d'. split; auto.
        apply in_or_app. auto.
      * intros (Hs & d' & Hin & Hd'). apply in_app_or in Hin as [Hin|[<-|[]]].
        -- split; auto. exists d'. auto.
        -- congruence.
Qed.

Lemma cities_built ds c :
  In c (keys (voc_cities (build_vocabulary ls l ds))) <->
  exists d, In d ds /\ label ls l Field.city d = c.
Proof.
  rewrite <- has_true_iff, has_lookup.
  induction ds as [|d ds IH] using rev_ind.
  - simpl. split; [intros (v & Hv); discriminate | intros (d & [] & _)].
  - rewrite build_vocabulary_snoc.
    setoid_rewrite lookup_voc_cities_step. fold (label ls l Field.city d).
    destruct (String.eqb_spec (label ls l Field.city d) c) as [Heq|Hne].
    + split; [|eauto]. intros _. exists d. split; auto.
      apply in_or_app. simpl. auto.
    + rewrite IH. split.
      * intros (d' & Hin & Hd'). exists d'. split; auto.
        apply in_or_app. auto.
      * intros (d' & Hin & Hd'). apply in_app_or in Hin as [Hin|[<-|[]]].
        -- exists d'. auto.
        -- contradiction.
Qed.

Lemma get_or_cities_step acc d c' :
  get_or (voc_cities (vocab_step ls l acc d)) c' [] =
  if label ls l Field.city d =? c' then
    file_area (label ls l Field.district d) (label ls l Field.area d)
              (get_or (voc_cities acc) (label ls l Field.city d) [])
  else get_or (voc_cities acc) c' [].
Proof.
  unfold get_or at 1. rewrite lookup_voc_cities_step. unfold label.
  now destruct (tData ls d Field.city l =? c').
Qed.

Lemma districts_built ds c di :
  In di (keys (get_or (voc_cities (build_vocabulary ls l ds)) c [])) <->
  exists d, In d ds /\ label ls l Field.city d = c /\ label ls l Field.district d = di.
Proof.
  rewrite <- has_true_iff, has_lookup.
  induction ds as [|d ds IH] using rev_ind.
  - simpl. split; [intros (v & Hv); discriminate | intros (d & [] & _)].
  - rewrite build_vocabulary_snoc, get_or_cities_step.
    destruct (String.eqb_spec (label ls l Field.city d) c) as [Hc|Hc].
    + setoid_rewrite lookup_file_area.
      destruct (String.eqb_spec (label ls l Field.district d) di) as [Hd|Hd].
      * split; [|eauto]. intros _. exists d. repeat split; auto.
        apply in_or_app. simpl. auto.
      * rewrite Hc, IH. split.
        -- intros (d' & Hin & Hd'). exists d'. split; auto.
           apply in_or_app. auto.
        -- intros (d' & Hin & Hc' & Hd').
           apply in_app_or in Hin as [Hin|[<-|[]]].
           ++ exists d'. auto.
           ++ contradiction.
    + rewrite IH. split.
      * intros (d' & Hin & Hd'). exists d'. split; auto.
        apply in_or_app. auto.
      * intros (d' & Hin & Hc' & Hd').
        apply in_app_or in Hin as [Hin|[<-|[]]].
        -- exists d'. auto.
        -- contradiction.
Qed.

Lemma areas_built ds c di a :
  In a (get_or (get_or (voc_cities (build_vocabulary ls l ds)) c []) di []) <->
  a <> "" /\
  exists d, In d ds /\ label ls l Field.city d = c /\
            label ls l Field.district d = di /\ label ls l Field.area d = a.
Proof.
  induction ds as [|d ds IH] using rev_ind.
  - simpl. split; [tauto | intros (_ & d & [] & _)].
  - rewrite build_vocabulary_snoc, get_or_cities_step.
    assert (Hold : (a <> "" /\
                    exists d', In d' ds /\ label ls l Field.city d' = c /\
                      label ls l Field.district d' = di /\
                      label ls l Field.area d' = a) ->
                   a <> "" /\
                   exists d', In d' (ds ++ [d]) /\ label ls l Field.city d' = c /\
                     label ls l Field.district d' = di /\ label ls l Field.area d' = a).
    { intros (Ha & d' & Hin & H). split; auto. exists d'. split; auto.
      apply in_or_app. auto. }
    destruct (String.eqb_spec (label ls l Field.city d) c) as [Hc|Hc].
    + unfold get_or at 1. rewrite lookup_file_area.
      destruct (String.eqb_spec (label ls l Field.district d) di) as [Hd|Hd].
      * rewrite Hc, Hd.
        fold (get_or (voc_cities (build_vocabulary ls l ds)) c []).
        destruct (truthy (label ls l Field.area d)) eqn:Ea.
        -- apply truthy_true_iff in Ea. rewrite set_add_In, IH. split.
           ++ intros [->|H]; auto. split; auto. exists d.
              repeat split; auto. apply in_or_app. simpl. auto.
           ++ intros (Ha & d' & Hin & Hc' & Hd' & Ha').
              apply in_app_or in Hin as [Hin|[<-|[]]]; auto.
              right. split; auto. exists d'. auto.
        -- apply truthy_false_iff in Ea. rewrite IH. split; auto.
           intros (Ha & d' & Hin & Hc' & Hd' & Ha').
           apply in_app_or in Hin as [Hin|[<-|[]]].
           ++ split; auto. exists d'. auto.
           ++ congruence.
      * rewrite Hc.
        fold (get_or (get_or (voc_cities (build_vocabulary ls l ds)) c [])
                     di []).
        rewrite IH. split; auto.
        intros (Ha & d' & Hin & Hc' & Hd' & Ha').
        apply in_app_or in Hin as [Hin|[<-|[]]].
        -- split; auto. exists d'. auto.
        -- contradiction.
    + rewrite IH. split; auto.
      intros (Ha & d' & Hin & Hc' & Hd' & Ha').
      apply in_app_or in Hin as [Hin|[<-|[]]].
      * split; auto. exists d'. auto.
      * contradiction.
Qed.
End VocabularyFacts.

Lemma sort_insert_In x y xs : In x (sort_insert y xs) <-> x = y \/ In x xs.
Proof.
  induction xs as [|z rest IH]; simpl.
  - intuition.
  - destruct (js_leb y z); simpl; rewrite ?IH; intuition.
Qed.

Lemma sort_In x xs : In x (sort xs) <-> In x xs.
Proof.
  induction xs as [|y rest IH]; simpl; [tauto|].
  rewrite sort_insert_In, IH. intuition.
Qed.

Lemma options_append_options os : forall sel,
  options (append_options sel os) = options sel ++ os.
Proof.
  unfold append_options. induction os as [|o rest IH]; intros sel; simpl.
  - now rewrite app_nil_r.
  - rewrite IH. simpl. now rewrite <- app_assoc.
Qed.

Lemma ui_lang_nonempty p : ui_lang p <> "".
Proof.
  unfold ui_lang. destruct (truthy (langSelect p)) eqn:E.
  - now apply truthy_true_iff.
  - discriminate.
Qed.

(** C2, as stated, fails: with English as the display language, a doctor
    with no English specialty and no English city still puts its Chinese
    labels among the options. *)
Lemma fallback_label_enters_vocabulary :
  lookup "en" (specialties cardiologist_zh) = None /\
  lookup "en" (cities cardiologist_zh) = None /\
  map opt_value
      (options (specialtySelect
                  (populateFilters (blank_page "en" [cardiologist_zh]))))
    = [""; "心臟科"] /\
  map opt_value
      (options (citySelect
                  (populateFilters (blank_page "en" [cardiologist_zh]))))
    = [""; "香港"].
Proof. repeat split. Qed.

(** ** The filter on a two-language doctor *)

(** The doctor's English city label matches although the page is shown in
    Chinese, in any letter case. *)
Lemma cross_language_city_match :
  value (citySelect hong_kong_page) = "Hong Kong" /\
  tData "zh-HK" unnamed_en_doctor Field.city "zh-HK" = "香港" /\
  applyFilters (JS := ascii_strings) hong_kong_page = [unnamed_en_doctor] /\
  passes (JS := ascii_strings) "" "" "HONG KONG" "" "" unnamed_en_doctor
    = true.
Proof. repeat split. Qed.

(** The filter of the older script compares the Chinese label the page
    shows with the selected one, and drops the doctor. *)
Lemma legacy_filter_uses_display_language :
  Legacy.applyFilters (JS := ascii_strings) hong_kong_page = [].
Proof. reflexivity. Qed.

(** A blank page shows both sample doctors. *)
Lemma empty_selection_is_identity_witness :
  searchInput (blank_page "en" [unnamed_en_doctor; cardiologist_zh]) = "" /\
  applyFilters (JS := ascii_strings)
    (blank_page "en" [unnamed_en_doctor; cardiologist_zh])
  = [unnamed_en_doctor; cardiologist_zh].
Proof.
  split; [reflexivity|].
  apply (empty_selection_is_identity
           (blank_page "en" [unnamed_en_doctor; cardiologist_zh]));
    reflexivity.
Defined.

(** ** Order and identity of the doctors *)

Lemma set_add_keys {V : Type} (k : string) (m : Dict V) :
  (if has k m then keys m else keys m ++ [k]) = set_add k (keys m).
Proof.
  unfold set_add. destruct (has k m) eqn:E.
  - apply has_true_iff in E. apply set_has_iff in E. now rewrite E.
  - apply has_false_iff in E. destruct (set_has k (keys m)) eqn:E'; auto.
    apply set_has_iff in E'. contradiction.
Qed.

Lemma set_has_filter_other x a s :
  x <> a -> set_has x (filter (fun y => negb (y =? a)) s) = set_has x s.
Proof.
  intros Hne. unfold set_has. induction s as [|y rest IH]; simpl; auto.
  destruct (String.eqb_spec y a) as [->|Hya]; simpl.
  - rewrite IH. destruct (String.eqb_spec x a); [contradiction|reflexivity].
  - now rewrite IH.
Qed.

Lemma filter_set_add_same a s :
  filter (fun y => negb (y =? a)) (set_add a s) =
  filter (fun y => negb (y =? a)) s.
Proof.
  unfold set_add. destruct (set_has a s); auto.
  rewrite filter_app. simpl. rewrite String.eqb_refl. simpl.
  now rewrite app_nil_r.
Qed.

Lemma uniq_snoc xs x : uniq (xs ++ [x]) = set_add x (uniq xs).
Proof.
  induction xs as [|a rest IH]; simpl; [reflexivity|].
  rewrite IH. destruct (String.eqb_spec x a) as [->|Hne].
  - rewrite filter_set_add_same. unfold set_add at 1, set_has. simpl.
    now rewrite String.eqb_refl.
  - unfold set_add at 2. unfold set_has at 1. simpl.
    apply String.eqb_neq in Hne. rewrite Hne. simpl.
    apply String.eqb_neq in Hne.
    fold (set_has x (filter (fun y => negb (y =? a)) (uniq rest))).
    rewrite (set_has_filter_other _ _ _ Hne).
    unfold set_add. destruct (set_has x (uniq rest)); auto.
    rewrite filter_app. simpl.
    apply String.eqb_neq in Hne. now rewrite Hne.
Qed.

Lemma uniq_In x xs : In x (uniq xs) <-> In x xs.
Proof.
  induction xs as [|a rest IH]; simpl; [tauto|].
  rewrite filter_In, IH, negb_true_iff, String.eqb_neq.
  destruct (String.eqb_spec a x); intuition congruence.
Qed.

Lemma keys_merge_map_uniq data :
  keys (merge_map data) = uniq (map row_id data).
Proof.
  induction data as [|item data IH] using rev_ind; [reflexivity|].
  rewrite merge_map_snoc, keys_merge_step, set_add_keys, IH, map_app.
  simpl. now rewrite uniq_snoc.
Qed.

Lemma merge_map_entry data k e : In (k, e) (merge_map data) -> id e = k.
Proof.
  intros H. apply In_lookup in H; [|apply keys_merge_map_NoDup].
  rewrite lookup_merge_map in H. exact (entity_of_id H).
Qed.

Lemma map_id_values (m : Dict Doctor) :
  (forall k e, In (k, e) m -> id e = k) -> map id (values m) = keys m.
Proof.
  unfold values, keys. induction m as [|[k e] rest IH]; intros H; simpl; auto.
  rewrite (H k e) by (left; reflexivity). rewrite IH; auto.
  intros k' e' Hin. apply H. now right.
Qed.

(** The grouped strategy lists the doctors in the order in which their
    identifiers first occur in the input, each identifier once. *)
Theorem grouped_order_of_first_occurrence (data : list Raw.t) :
  map id (mergeByDocId data) = uniq (map row_id data) /\
  NoDup (map id (mergeByDocId data)).
Proof.
  assert (H : map id (mergeByDocId data) = keys (merge_map data)).
  { unfold mergeByDocId. apply map_id_values. apply merge_map_entry. }
  split.
  - now rewrite H, keys_merge_map_uniq.
  - rewrite H. apply keys_merge_map_NoDup.
Qed.

(** ** Last write wins in the grouped maps *)






Lemma names_apply_row doc r :
  names (apply_row doc r) =
  insert (row_lang r)
         (js_or (Raw.doc_name r) (js_or (lookup (row_lang r) (names doc)) ""))
         (names doc).
Proof. reflexivity. Qed.

Lemma keys_names_fold rows : forall doc,
  keys (names (fold_left apply_row rows doc)) =
  fold_left (fun ks r => set_add (row_lang r) ks) rows (keys (names doc)).
Proof.
  induction rows as [|r rest IH]; intros doc; simpl; [reflexivity|].
  now rewrite IH, names_apply_row, keys_insert, set_add_keys.
Qed.

Lemma fold_set_add_uniq (rows : list Raw.t) :
  fold_left (fun ks r => set_add (row_lang r) ks) rows [] =
  uniq (map row_lang rows).
Proof.
  induction rows as [|r rest IH] using rev_ind; [reflexivity|].
  rewrite fold_left_app, map_app. simpl. now rewrite IH, uniq_snoc.
Qed.

Lemma js_or_Some_empty w : js_or (Some w) "" = w.
Proof.
  simpl. destruct (truthy w) eqn:E; auto.
  now apply truthy_false_iff in E.
Qed.

Lemma lookup_names_fold l rows : forall doc,
  lookup l (names (fold_left apply_row rows doc)) =
  name_after (lookup l (names doc))
             (filter (fun r => row_lang r =? l) rows).
Proof.
  induction rows as [|r rest IH]; intros doc; simpl; [reflexivity|].
  rewrite IH, names_apply_row.
  destruct (String.eqb_spec (row_lang r) l) as [<-|Hne].
  - rewrite lookup_insert_eq.
    set (before := lookup (row_lang r) (names doc)).
    destruct (filter _ rest) as [|r' rest'] eqn:Hrest; simpl.
    + destruct (Raw.doc_name r) as [s|]; simpl; auto.
      destruct (truthy s); auto.
    + destruct (match last_truthy (map Raw.doc_name rest') with
                | Some v => Some v
                | None => if truthy_opt (Raw.doc_name r') then Raw.doc_name r'
                          else None
                end); auto.
      change (if truthy ?w then ?w else "") with (js_or (Some w) "").
      rewrite js_or_Some_empty.
      destruct (Raw.doc_name r) as [s|]; simpl; auto.
      destruct (truthy s); auto.
  - now rewrite lookup_insert_ne.
Qed.

(** ** The per-row strategy *)

Lemma string_of_nat_inj n m : string_of_nat n = string_of_nat m -> n = m.
Proof.
  unfold string_of_nat. intros H.
  apply Unsigned.to_uint_inj.
  assert (Hs : Some (Nat.to_uint n) = Some (Nat.to_uint m)).
  { rewrite <- (NilEmpty.usu (Nat.to_uint n)),
      <- (NilEmpty.usu (Nat.to_uint m)). now rewrite H. }
  now injection Hs.
Qed.

Lemma string_of_nat_no_underscore n : has_underscore (string_of_nat n) = false.
Proof.
  unfold string_of_nat. induction (Nat.to_uint n); simpl; auto.
Qed.

Lemma has_underscore_app_r x y :
  has_underscore y = true -> has_underscore (x ++ y) = true.
Proof.
  intros H. induction x as [|c x IH]; simpl; auto.
  rewrite IH. apply orb_true_r.
Qed.

Lemma after_last_underscore_app x y :
  has_underscore y = true ->
  after_last_underscore (x ++ y) = after_last_underscore y.
Proof.
  intros H. induction x as [|c x IH]; simpl; auto.
  now rewrite (has_underscore_app_r x y H).
Qed.

Lemma after_last_underscore_id idx r :
  after_last_underscore (id (row_doctor idx r)) = string_of_nat idx.
Proof.
  unfold row_doctor, id.
  pose proof (string_of_nat_no_underscore idx) as Hn.
  assert (H1 : has_underscore ("_" ++ string_of_nat idx) = true)
    by reflexivity.
  assert (H2 : has_underscore
                 ("_" ++ row_lang r ++ "_" ++ string_of_nat idx) = true)
    by reflexivity.
  rewrite (after_last_underscore_app _ _ H2).
  change ("_" ++ row_lang r ++ "_" ++ string_of_nat idx)%string
    with (String "_" (row_lang r ++ "_" ++ string_of_nat idx)).
  cbn [after_last_underscore].
  rewrite (has_underscore_app_r (row_lang r) _ H1).
  rewrite (after_last_underscore_app _ _ H1).
  change ("_" ++ string_of_nat idx)%string
    with (String "_" (string_of_nat idx)).
  cbn [after_last_underscore]. rewrite Hn. reflexivity.
Qed.

Lemma NoDup_ids_map_idx xs : forall start,
  NoDup (map id (map_idx row_doctor start xs)).
Proof.
  induction xs as [|x rest IH]; intros start; cbn [map map_idx];
    constructor; auto.
  intros Hin. apply in_map_iff in Hin as (y & Hid & Hy).
  apply In_map_idx in Hy as (n & x' & _ & ->).
  apply (f_equal after_last_underscore) in Hid.
  rewrite !after_last_underscore_id in Hid.
  apply string_of_nat_inj in Hid. lia.
Qed.

(** The per-row strategy gives pairwise distinct [id]s, whatever the rows
    are, also when rows repeat. *)
Theorem per_row_ids_distinct (data : list Raw.t) :
  NoDup (map id (normalizePerRow data)).
Proof. apply NoDup_ids_map_idx. Qed.


Lemma resolve_single rl v l :
  (truthy v = false -> v = "") ->
  resolve [(rl, v)] l =
  if (rl =? l) || (rl =? "zh-HK") || (rl =? "zh-CN") || (rl =? "en")
  then v else "".
Proof.
  intros Hv. unfold resolve. cbn [lookup].
  rewrite (String.eqb_sym l rl), (String.eqb_sym "zh-HK" rl),
    (String.eqb_sym "zh-CN" rl), (String.eqb_sym "en" rl).
  destruct (truthy v) eqn:E.
  - destruct (rl =? l), (rl =? "zh-HK"), (rl =? "zh-CN"), (rl =? "en");
      simpl; rewrite ?E; reflexivity.
  - rewrite (Hv eq_refl).
    destruct (rl =? l), (rl =? "zh-HK"), (rl =? "zh-CN"), (rl =? "en");
      reflexivity.
Qed.



(** ** The grouped strategy of the older script *)

Lemma key_eqb_eq a b : Legacy.key_eqb a b = true <-> a = b.
Proof.
  destruct a as [x|], b as [y|]; simpl; split; try congruence.
  - intros H. apply String.eqb_eq in H. now subst.
  - intros [= ->]. apply String.eqb_refl.
Qed.

Lemma legacy_get_set_same m k e : Legacy.get k (Legacy.set k e m) = Some e.
Proof.
  induction m as [|[k' e'] rest IH]; simpl.
  - now rewrite (proj2 (key_eqb_eq k k) eq_refl).
  - destruct (Legacy.key_eqb k k') eqn:E; simpl; rewrite E; auto.
Qed.

Lemma legacy_get_set_other m k k' e :
  k <> k' -> Legacy.get k' (Legacy.set k e m) = Legacy.get k' m.
Proof.
  intros Hne. induction m as [|[k0 e0] rest IH]; simpl.
  - destruct (Legacy.key_eqb k' k) eqn:E; auto.
    apply key_eqb_eq in E. congruence.
  - destruct (Legacy.key_eqb k k0) eqn:E; simpl.
    + apply key_eqb_eq in E. subst k0.
      destruct (Legacy.key_eqb k' k) eqn:E'; auto.
      apply key_eqb_eq in E'. congruence.
    + now rewrite IH.
Qed.

Lemma legacy_In_set m k e x :
  In x (Legacy.set k e m) -> x = (k, e) \/ In x m.
Proof.
  induction m as [|[k' e'] rest IH]; simpl.
  - intros [H|[]]. now left.
  - destruct (Legacy.key_eqb k k') eqn:E; simpl.
    + apply key_eqb_eq in E. subst k'. intros [H|H]; auto.
    + intros [H|H]; auto. destruct (IH H); auto.
Qed.

Lemma legacy_get_In m k e : Legacy.get k m = Some e -> In (k, e) m.
Proof.
  induction m as [|[k' e'] rest IH]; simpl; [discriminate|].
  destruct (Legacy.key_eqb k k') eqn:E; auto.
  apply key_eqb_eq in E. subst k'. intros [= ->]. now left.
Qed.

Lemma legacy_set_set m k e0 e :
  Legacy.set k e (Legacy.set k e0 m) = Legacy.set k e m.
Proof.
  induction m as [|[k' e'] rest IH]; simpl.
  - now rewrite (proj2 (key_eqb_eq k k) eq_refl).
  - destruct (Legacy.key_eqb k k') eqn:E; simpl; rewrite E; auto.
    now rewrite IH.
Qed.

Lemma legacy_merge_step_set m item :
  Legacy.merge_step m item =
  Legacy.set (Raw.doc_id item)
    (Legacy.populate item
       (match Legacy.get (Raw.doc_id item) m with
        | Some old => old
        | None => Legacy.fresh_entity item
        end)) m.
Proof.
  unfold Legacy.merge_step.
  destruct (Legacy.get (Raw.doc_id item) m) as [old|] eqn:Hget.
  - now rewrite Hget.
  - now rewrite legacy_get_set_same, legacy_set_set.
Qed.

Lemma find_snoc_found {A : Type} (f : A -> bool) xs x r :
  find f xs = Some r -> find f (xs ++ [x]) = Some r.
Proof.
  induction xs as [|y rest IH]; simpl; [discriminate|].
  destruct (f y); auto.
Qed.

Lemma find_snoc_none {A : Type} (f : A -> bool) xs x :
  find f xs = None -> f x = true -> find f (xs ++ [x]) = Some x.
Proof.
  induction xs as [|y rest IH]; simpl.
  - now intros _ ->.
  - destruct (f y); [discriminate | auto].
Qed.

Lemma legacy_merge_invariant data :
  (forall k e, In (k, e) (fold_left Legacy.merge_step data []) ->
               legacy_seeded data k e) /\
  (forall r, In r data ->
             Legacy.get (Raw.doc_id r)
                        (fold_left Legacy.merge_step data []) <> None).
Proof.
  induction data as [|item data [IHe IHk]] using rev_ind.
  - split; [intros k e [] | intros r []].
  - rewrite fold_left_app. simpl. rewrite legacy_merge_step_set.
    set (m := fold_left Legacy.merge_step data []) in *.
    split.
    + intros k e H. apply legacy_In_set in H as [[= -> ->]|H].
      * destruct (Legacy.get (Raw.doc_id item) m) as [old|] eqn:Hget.
        -- apply legacy_get_In in Hget. apply IHe in Hget.
           destruct Hget as (Hid & r & Hr & Ha & Hlat & Hlng & Hc).
           split; [exact Hid|]. exists r. repeat split; auto.
           now apply find_snoc_found.
        -- split; [reflexivity|]. exists item. repeat split.
           apply find_snoc_none.
           ++ destruct (find _ data) as [r|] eqn:Hf; auto.
              apply find_some in Hf as [Hin Hk].
              apply key_eqb_eq in Hk. apply IHk in Hin.
              rewrite Hk in Hin. contradiction.
           ++ now apply key_eqb_eq.
      * destruct (IHe k e H) as (Hid & r & Hr & Hrest).
        split; [exact Hid|]. exists r. split; auto.
        now apply find_snoc_found.
    + intros r Hin.
      destruct (key_eqb_eq (Raw.doc_id item) (Raw.doc_id r)) as [_ Heq].
      destruct (Legacy.key_eqb (Raw.doc_id item) (Raw.doc_id r)) eqn:E.
      * apply key_eqb_eq in E. rewrite <- E, legacy_get_set_same.
        discriminate.
      * assert (Hne : Raw.doc_id item <> Raw.doc_id r).
        { intros Hc. apply Heq in Hc. discriminate. }
        rewrite (legacy_get_set_other _ _ _ _ Hne).
        apply in_app_or in Hin as [Hin|[<-|[]]]; [now apply IHk|].
        congruence.
Qed.

(** In the older script every seed field of a doctor, the coordinates
    included, is the one of the first row carrying the doctor's [doc_id];
    rows without [doc_id] form a doctor of their own, apart from the rows
    whose [doc_id] is the empty string. *)
Theorem legacy_seed_fields_from_first_row (data : list Raw.t)
    (e : Legacy.Entity) (He : In e (Legacy.mergeByDocId data)) :
  exists r,
    find (fun r => Legacy.key_eqb (Raw.doc_id r) (Legacy.id e)) data
      = Some r /\
    Legacy.address e = js_or (Raw.doc_address r) "" /\
    Legacy.lat e = js_or (Raw.doc_lat r) "" /\
    Legacy.lng e = js_or (Raw.doc_long r) "" /\
    Legacy.cta_link e = js_or (Raw.cta_link r) "".
Proof.
  unfold Legacy.mergeByDocId in He.
  apply in_map_iff in He as ([k e'] & Heq & Hin). simpl in Heq. subst e'.
  destruct (proj1 (legacy_merge_invariant data) k e Hin) as (Hid & r & H).
  exists r. now rewrite Hid.
Qed.

(** On [late_lat_rows] the older script keeps the empty latitude of the
    first row. *)
Lemma legacy_seed_fields_from_first_row_witness :
  exists e,
    In e (Legacy.mergeByDocId late_lat_rows) /\
    Legacy.lat e = "" /\
    exists r,
      find (fun r => Legacy.key_eqb (Raw.doc_id r) (Legacy.id e))
           late_lat_rows = Some r /\
      Legacy.address e = js_or (Raw.doc_address r) "" /\
      Legacy.lat e = js_or (Raw.doc_lat r) "" /\
      Legacy.lng e = js_or (Raw.doc_long r) "" /\
      Legacy.cta_link e = js_or (Raw.cta_link r) "".
Proof.
  exists (hd (Legacy.fresh_entity Raw.empty)
             (Legacy.mergeByDocId late_lat_rows)).
  split; [left; reflexivity|]. split; [reflexivity|].
  apply (legacy_seed_fields_from_first_row late_lat_rows).
  left. reflexivity.
Defined.

(** ** More on the filter *)

Lemma resolve_stored m l :
  resolve m l <> "" ->
  exists k,
    (k = l \/ k = "zh-HK" \/ k = "zh-CN" \/ k = "en") /\
    lookup k m = Some (resolve m l).
Proof.
  unfold resolve.
  assert (Hstep : forall k rest,
             js_or (lookup k m) rest <> "" ->
             lookup k m = Some (js_or (lookup k m) rest) \/
             (js_or (lookup k m) rest = rest /\ rest <> "")).
  { intros k rest H. destruct (lookup k m) as [s|]; simpl in *; auto.
    destruct (truthy s); auto. }
  intros H.
  destruct (Hstep _ _ H) as [H0|[E0 H0]]; [exists l; auto|]. rewrite E0.
  destruct (Hstep _ _ H0) as [H1|[E1 H1]]; [exists "zh-HK"; auto|]. rewrite E1.
  destruct (Hstep _ _ H1) as [H2|[E2 H2]]; [exists "zh-CN"; auto|]. rewrite E2.
  destruct (Hstep _ _ H2) as [H3|[E3 H3]]; [exists "en"; auto 6|].
  contradiction.
Qed.

Lemma filter_all_true {A : Type} (f : A -> bool) xs :
  (forall x, In x xs -> f x = true) -> filter f xs = xs.
Proof.
  induction xs as [|x rest IH]; intros H; simpl; auto.
  rewrite (H x) by (left; reflexivity). rewrite IH; auto.
  intros y Hy. apply H. now right.
Qed.

Section FilterMore.
Context {JS : JSString}.

Lemma matches_same_choice m a b :
  a <> "" -> b <> "" -> toLowerCase a = toLowerCase b ->
  (matches_any_language m a <-> matches_any_language m b).
Proof.
  intros _ _ H. unfold matches_any_language.
  split; intros (l & v & Hin & Hv); exists l, v; split; auto; congruence.
Qed.

Lemma guard_same_choice m a b :
  same_choice a b ->
  ((a <> "" -> matches_any_language m a) <->
   (b <> "" -> matches_any_language m b)).
Proof.
  intros [[-> ->]|(Ha & Hb & H)]; [tauto|].
  pose proof (matches_same_choice m a b Ha Hb H). tauto.
Qed.

(** The filter reads a selector's choice up to letter case only: two
    selections whose choices are equal up to case, selector by selector,
    show the same doctors. *)
Theorem filter_ignores_case_of_choices (q specialty city district area
    specialty' city' district' area' : string) (d : Doctor)
    (Hs : same_choice specialty specialty') (Hc : same_choice city city')
    (Hd : same_choice district district') (Ha : same_choice area area') :
  passes q specialty city district area d =
  passes q specialty' city' district' area' d.
Proof.
  apply eq_true_iff_eq. rewrite !passes_iff.
  rewrite (guard_same_choice (specialties d) _ _ Hs),
    (guard_same_choice (cities d) _ _ Hc),
    (guard_same_choice (districts d) _ _ Hd),
    (guard_same_choice (areas d) _ _ Ha).
  reflexivity.
Qed.

(** Giving up a choice, or the text query, never removes a doctor from the
    list: what passes a selection passes every selection obtained from it
    by emptying some of the five controls. *)
Theorem filter_relaxing_keeps_doctors (q specialty city district area
    q' specialty' city' district' area' : string) (d : Doctor)
    (Hq : relaxed q q') (Hs : relaxed specialty specialty')
    (Hc : relaxed city city') (Hd : relaxed district district')
    (Ha : relaxed area area')
    (Hpass : passes q specialty city district area d = true) :
  passes q' specialty' city' district' area' d = true.
Proof.
  apply passes_iff in Hpass as (Pq & Ps & Pc & Pd & Pa).
  apply passes_iff. unfold relaxed, query_passes in *.
  repeat split.
  - destruct Hq as [->| ->]; auto.
  - destruct Hs as [->| ->]; [congruence | auto].
  - destruct Hc as [->| ->]; [congruence | auto].
  - destruct Hd as [->| ->]; [congruence | auto].
  - destruct Ha as [->| ->]; [congruence | auto].
Qed.

Lemma legacy_guard ls sel f d :
  (truthy sel &&
   negb (tData ls d f (if truthy ls then ls else "en") =? sel) = false) ->
  sel <> "" -> matches_any_language (plural f d) sel.
Proof.
  intros H Hsel. apply truthy_true_iff in Hsel. rewrite Hsel in H.
  simpl in H. apply negb_false_iff, String.eqb_eq in H.
  assert (Hl : (if truthy ls then ls else "en") <> "").
  { destruct (truthy ls) eqn:E; [now apply truthy_true_iff | discriminate]. }
  rewrite (tData_resolve _ _ _ _ Hl) in H.
  apply truthy_true_iff in Hsel.
  destruct (resolve_stored (plural f d) (if truthy ls then ls else "en"))
    as (k & _ & Hk); [congruence|].
  exists k, sel. split; auto. apply lookup_In. congruence.
Qed.

(** Every doctor the filter of the older script shows is shown by the
    current filter for the same selection: the label resolved for the
    display language is one of the stored labels. *)
Theorem current_filter_extends_legacy (ls q specialty city district area
    : string) (d : Doctor)
    (Hlegacy : Legacy.passes ls q specialty city district area d = true) :
  passes q specialty city district area d = true.
Proof.
  unfold Legacy.passes in Hlegacy. apply passes_iff. unfold query_passes.
  destruct (truthy q && negb _) eqn:Eq; [discriminate|].
  cbv zeta in Hlegacy.
  destruct (truthy specialty && negb _) eqn:Es; [discriminate|].
  destruct (truthy city && negb _) eqn:Ec; [discriminate|].
  destruct (truthy district && negb _) eqn:Ed; [discriminate|].
  destruct (truthy area && negb _) eqn:Ea; [discriminate|].
  split; [|repeat split].
  - destruct (truthy q) eqn:E; simpl in Eq.
    + right. now apply negb_false_iff in Eq.
    + left. now apply truthy_false_iff.
  - exact (legacy_guard ls specialty Field.specialty d Es).
  - exact (legacy_guard ls city Field.city d Ec).
  - exact (legacy_guard ls district Field.district d Ed).
  - exact (legacy_guard ls area Field.area d Ea).
Qed.
End FilterMore.

(** Choosing ["hong kong"] or ["Hong Kong"] as city shows the same
    doctors. *)
Lemma filter_ignores_case_of_choices_witness :
  same_choice (JS := ascii_strings) "" "" /\
  same_choice (JS := ascii_strings) "hong kong" "Hong Kong" /\
  passes (JS := ascii_strings) "" "" "hong kong" "" "" unnamed_en_doctor =
  passes (JS := ascii_strings) "" "" "Hong Kong" "" "" unnamed_en_doctor.
Proof.
  assert (H0 : same_choice (JS := ascii_strings) "" "")
    by (left; split; reflexivity).
  assert (H1 : same_choice (JS := ascii_strings) "hong kong" "Hong Kong").
  { right. split; [discriminate|]. split; [discriminate | reflexivity]. }
  split; [exact H0|]. split; [exact H1|].
  apply (filter_ignores_case_of_choices (JS := ascii_strings)
           "" "" "hong kong" "" "" "" "Hong Kong" "" "" unnamed_en_doctor
           H0 H1 H0 H0).
Defined.

(** A doctor shown for city ["Hong Kong"] stays when the city is given
    up. *)
Lemma filter_relaxing_keeps_doctors_witness :
  relaxed "Hong Kong" "" /\ relaxed "" "" /\
  passes (JS := ascii_strings) "" "" "Hong Kong" "" "" unnamed_en_doctor
    = true /\
  passes (JS := ascii_strings) "" "" "" "" "" unnamed_en_doctor = true.
Proof.
  assert (H0 : relaxed "" "") by (left; reflexivity).
  assert (H1 : relaxed "Hong Kong" "") by (left; reflexivity).
  split; [exact H1|]. split; [exact H0|]. split; [reflexivity|].
  apply (filter_relaxing_keeps_doctors (JS := ascii_strings)
           "" "" "Hong Kong" "" "" "" "" "" "" "" unnamed_en_doctor
           H0 H0 H1 H0 H0).
  reflexivity.
Defined.

(** The older filter shows [cardiologist_zh] for its Chinese city on a
    Chinese page, and so does the current one. *)
Lemma current_filter_extends_legacy_witness :
  Legacy.passes (JS := ascii_strings) "zh-HK" "" "" "香港" "" ""
                cardiologist_zh = true /\
  passes (JS := ascii_strings) "" "" "香港" "" "" cardiologist_zh = true.
Proof.
  split; [reflexivity|].
  apply (current_filter_extends_legacy (JS := ascii_strings)
           "zh-HK" "" "" "香港" "" "" cardiologist_zh).
  reflexivity.
Defined.

(** ** Selectors *)

Lemma value_of_index v os :
  match index_of_value v os with
  | Some i => match nth_error os i with
              | Some o => opt_value o
              | None => ""
              end
  | None => ""
  end =
  if existsb (fun o => opt_value o =? v) os then v else "".
Proof.
  induction os as [|o rest IH]; simpl; auto.
  destruct (String.eqb_spec (opt_value o) v) as [Heq|Hne]; simpl; auto.
  rewrite <- IH. now destruct (index_of_value v rest).
Qed.

Lemma value_set_value v sel :
  value (set_value v sel) =
  if existsb (fun o => opt_value o =? v) (options sel) then v else "".
Proof. unfold value, set_value. simpl. apply value_of_index. Qed.

Lemma value_set_value_empty sel : value (set_value "" sel) = "".
Proof. rewrite value_set_value. now destruct (existsb _ _). Qed.

Lemma value_set_value_In o sel :
  In o (options sel) -> value (set_value (opt_value o) sel) = opt_value o.
Proof.
  intros H. rewrite value_set_value.
  destruct (existsb _ _) eqn:E; auto.
  assert (Ht : existsb (fun o' => opt_value o' =? opt_value o) (options sel)
               = true).
  { apply existsb_exists. exists o. split; auto. apply String.eqb_refl. }
  congruence.
Qed.

Lemma updateDistrictsForCity_globals city p :
  langSelect (updateDistrictsForCity city p) = langSelect p /\
  citiesMap (updateDistrictsForCity city p) = citiesMap p.
Proof.
  unfold updateDistrictsForCity.
  destruct (citiesMap p) as [cm|] eqn:E; [destruct (has city cm)|]; simpl;
    auto.
Qed.

Lemma updateAreasForDistrict_globals city district p :
  langSelect (updateAreasForDistrict city district p) = langSelect p /\
  citiesMap (updateAreasForDistrict city district p) = citiesMap p.
Proof.
  unfold updateAreasForDistrict.
  destruct (citiesMap p) as [cm|] eqn:E; [destruct (has city cm)|]; simpl;
    auto.
Qed.

Lemma value_append_options_valid os : forall sel i o,
  selectedIndex sel = Some i ->
  nth_error (options sel) i = Some o ->
  value (append_options sel os) = opt_value o.
Proof.
  unfold append_options.
  induction os as [|x rest IH]; intros sel i o Hsel Hnth; simpl.
  - unfold value. now rewrite Hsel, Hnth.
  - apply (IH _ i o); simpl.
    + now rewrite Hsel.
    + rewrite nth_error_app1; auto.
      apply nth_error_Some. congruence.
Qed.

Section ListenerFacts.
Context {JS : JSString}.

Lemma filter_passes_unconstrained ds : filter (passes "" "" "" "" "") ds = ds.
Proof. apply filter_all_true. intros d _. reflexivity. Qed.

(** The [Clear filters] button leaves the text box and the four selectors
    empty and shows the whole collection in its order, whatever the page
    was. *)
Theorem clear_shows_everything (p : Page) :
  let (p', shown) := on_clear p in
  searchInput p' = "" /\
  value (specialtySelect p') = "" /\ value (citySelect p') = "" /\
  value (districtSelect p') = "" /\ value (areaSelect p') = "" /\
  doctors p' = doctors p /\
  shown = doctors p.
Proof.
  unfold on_clear. cbv zeta.
  set (p5 := with_areaSelect _ _).
  destruct (updateDistrictsForCity_resets "" p5)
    as (Hd6 & _ & Hq6 & Hs6 & Hc6 & Hdoc6).
  set (p6 := updateDistrictsForCity "" p5) in *.
  destruct (updateAreasForDistrict_resets "" "" p6)
    as (Ha7 & Hd7 & Hq7 & Hs7 & Hc7 & Hdoc7).
  set (p7 := updateAreasForDistrict "" "" p6) in *.
  assert (Hq : searchInput p7 = "") by (rewrite Hq7, Hq6; reflexivity).
  assert (Hs : value (specialtySelect p7) = "").
  { rewrite Hs7, Hs6. apply value_set_value_empty. }
  assert (Hc : value (citySelect p7) = "").
  { rewrite Hc7, Hc6. apply value_set_value_empty. }
  assert (Hd : value (districtSelect p7) = "") by (now rewrite Hd7).
  assert (Hdoc : doctors p7 = doctors p) by (rewrite Hdoc7, Hdoc6; reflexivity).
  repeat split; auto.
  unfold applyFilters.
  rewrite Hq, Hs, Hc, Hd, Ha7, Hdoc, trim_empty, toLowerCase_empty.
  apply filter_passes_unconstrained.
Qed.

End ListenerFacts.

(** ** Start-up *)

Lemma first_segment_leading_slash path :
  first_segment (String "/" path) = first_segment path.
Proof. reflexivity. Qed.

Section StartupFacts.
Context {JS : JSString}.

Lemma start_language_cases q pathname :
  detect_lang q pathname = "en" \/ detect_lang q pathname = "zh-HK".
Proof.
  unfold detect_lang. cbv zeta.
  destruct (truthy _); auto.
  destruct (existsb _ _); auto.
  destruct (existsb _ _); auto.
Qed.

(** The language chosen at start-up is always ["en"] or ["zh-HK"]; a
    non-empty [lang] parameter decides alone, whatever the path is; and
    without the parameter a leading slash of the path changes nothing. *)
Theorem start_language (q : option string) (pathname : string) :
  (detect_lang q pathname = "en" \/ detect_lang q pathname = "zh-HK") /\
  (forall other, truthy_opt q = true ->
                 detect_lang q other = detect_lang q pathname) /\
  detect_lang None (String "/" pathname) = detect_lang None pathname.
Proof.
  split; [|split].
  - apply start_language_cases.
  - intros other Hq. unfold detect_lang.
    destruct q as [s|]; [|discriminate]. simpl in Hq.
    unfold js_or. now rewrite Hq.
  - unfold detect_lang. now rewrite first_segment_leading_slash.
Qed.

Lemma first_preferred_none preferred os :
  first_preferred preferred os = None ->
  forall pref o, In pref preferred -> In o os -> option_matches pref o = false.
Proof.
  induction preferred as [|p0 rest IH]; simpl; [intros _ pref o []|].
  destruct (find (option_matches p0) os) eqn:E; [discriminate|].
  intros H pref o [<-|Hin] Ho.
  - exact (find_none _ _ E o Ho).
  - now apply IH.
Qed.

Lemma first_preferred_some preferred os o :
  first_preferred preferred os = Some o ->
  exists pref, In pref preferred /\ In o os /\ option_matches pref o = true.
Proof.
  induction preferred as [|p0 rest IH]; simpl; [discriminate|].
  destruct (find (option_matches p0) os) eqn:E.
  - intros [= <-]. apply find_some in E as [Hin Hm]. exists p0. auto.
  - intros H. destruct (IH H) as (pref & Hp & Ho). exists pref. auto.
Qed.

Lemma setDefaultCitySelection_found p o :
  first_preferred (preferred_cities (ui_lang p)) (options (citySelect p))
    = Some o ->
  value (citySelect (setDefaultCitySelection p)) = opt_value o /\
  value (districtSelect (setDefaultCitySelection p)) = "" /\
  value (areaSelect (setDefaultCitySelection p)) = "".
Proof.
  intros H. unfold setDefaultCitySelection. rewrite H.
  set (p1 := with_citySelect _ p).
  destruct (updateDistrictsForCity_resets (opt_value o) p1)
    as (Hd2 & _ & _ & _ & Hc2 & _).
  set (p2 := updateDistrictsForCity (opt_value o) p1) in *.
  destruct (updateAreasForDistrict_resets (opt_value o) "" p2)
    as (Ha3 & Hd3 & _ & _ & Hc3 & _).
  split; [|split; [now rewrite Hd3 | exact Ha3]].
  rewrite Hc3, Hc2. subst p1. simpl.
  apply value_set_value_In.
  destruct (first_preferred_some _ _ _ H) as (_ & _ & Ho & _). exact Ho.
Qed.

(** [setDefaultCitySelection] puts the city selector on an option that
    carries, as value or caption and up to case, one of the two preferred
    labels, and then empties district and area; the label preferred for the
    display language wins when an option carries it. When no option
    carries either label the city selector is emptied and the district and
    area selectors are left alone. *)
Theorem default_city (p : Page) :
  let p' := setDefaultCitySelection p in
  let preferred := preferred_cities (ui_lang p) in
  ((forall pref o, In pref preferred -> In o (options (citySelect p)) ->
                   option_matches pref o = false) ->
   value (citySelect p') = "" /\
   districtSelect p' = districtSelect p /\ areaSelect p' = areaSelect p) /\
  (forall pref o, In pref preferred -> In o (options (citySelect p)) ->
                  option_matches pref o = true ->
   (exists pref' o',
       In pref' preferred /\ In o' (options (citySelect p)) /\
       option_matches pref' o' = true /\
       value (citySelect p') = opt_value o') /\
   value (districtSelect p') = "" /\ value (areaSelect p') = "") /\
  (forall o, find (option_matches (hd "" preferred)) (options (citySelect p))
             = Some o ->
             value (citySelect p') = opt_value o).
Proof.
  intros p' preferred. subst p'. split; [|split].
  - intros Hnone. unfold setDefaultCitySelection.
    fold preferred.
    destruct (first_preferred preferred (options (citySelect p))) as [o|] eqn:E.
    + destruct (first_preferred_some _ _ _ E) as (pref & Hp & Ho & Hm).
      rewrite (Hnone pref o Hp Ho) in Hm. discriminate.
    + simpl. repeat split. apply value_set_value_empty.
  - intros pref o Hp Ho Hm.
    destruct (first_preferred preferred (options (citySelect p))) as [o'|] eqn:E.
    + destruct (setDefaultCitySelection_found p o' E) as (Hc & Hd & Ha).
      destruct (first_preferred_some _ _ _ E) as (pref' & Hp' & Ho' & Hm').
      split; [|split]; auto. exists pref', o'. auto.
    + rewrite (first_preferred_none _ _ E pref o Hp Ho) in Hm. discriminate.
  - intros o Hfind.
    apply (setDefaultCitySelection_found p o).
    fold preferred. unfold preferred, preferred_cities in *.
    destruct (ui_lang p =? "en"); simpl in *; now rewrite Hfind.
Qed.

Lemma setDefaultCitySelection_frame p :
  searchInput (setDefaultCitySelection p) = searchInput p /\
  langSelect (setDefaultCitySelection p) = langSelect p /\
  doctors (setDefaultCitySelection p) = doctors p.
Proof.
  unfold setDefaultCitySelection.
  destruct (first_preferred _ _) as [o|]; [|simpl; auto].
  set (p1 := with_citySelect _ p).
  destruct (updateDistrictsForCity_resets (opt_value o) p1)
    as (_ & _ & Hq2 & _ & _ & Hdoc2).
  destruct (updateDistrictsForCity_globals (opt_value o) p1) as (Hl2 & _).
  set (p2 := updateDistrictsForCity (opt_value o) p1) in *.
  destruct (updateAreasForDistrict_resets (opt_value o) "" p2)
    as (_ & _ & Hq3 & _ & _ & Hdoc3).
  destruct (updateAreasForDistrict_globals (opt_value o) "" p2) as (Hl3 & _).
  rewrite Hq3, Hq2, Hl3, Hl2, Hdoc3, Hdoc2. auto.
Qed.

(** Once the data has arrived, [loadDoctors] leaves a page in ["en"] or
    ["zh-HK"] holding the normalised doctors, with district and area
    unconstrained, and shows those doctors filtered by the text box, the
    specialty selector and the city selector as start-up left them. *)
Theorem load_shows_default_city (flag : bool) (rawData : list Raw.t)
    (q : option string) (pathname : string) (p : Page) :
  let (p', shown) := loadDoctors flag rawData q pathname p in
  (langSelect p' = "en" \/ langSelect p' = "zh-HK") /\
  doctors p' = normalize flag rawData /\
  value (districtSelect p') = "" /\ value (areaSelect p') = "" /\
  shown = filter (passes (toLowerCase (trim (searchInput p)))
                    (value (specialtySelect p')) (value (citySelect p'))
                    "" "")
                 (normalize flag rawData).
Proof.
  unfold loadDoctors. cbv zeta.
  set (p0 := mkPage _ _ _ _ _ _ _ _).
  set (p2 := applyTranslationsToUI (populateFilters p0)).
  assert (Hq2 : searchInput p2 = searchInput p) by reflexivity.
  assert (Hl2 : langSelect p2 = detect_lang q pathname) by reflexivity.
  assert (Hdoc2 : doctors p2 = normalize flag rawData) by reflexivity.
  destruct (setDefaultCitySelection_frame p2) as (Hq3 & Hl3 & Hdoc3).
  set (p3 := setDefaultCitySelection p2) in *.
  destruct (updateDistrictsForCity_resets (value (citySelect p3)) p3)
    as (Hd4 & _ & Hq4 & _ & _ & Hdoc4).
  destruct (updateDistrictsForCity_globals (value (citySelect p3)) p3)
    as (Hl4 & _).
  set (p4 := updateDistrictsForCity (value (citySelect p3)) p3) in *.
  destruct (updateAreasForDistrict_resets (value (citySelect p4))
              (value (areaSelect p4)) p4)
    as (Ha5 & Hd5 & Hq5 & _ & _ & Hdoc5).
  destruct (updateAreasForDistrict_globals (value (citySelect p4))
              (value (areaSelect p4)) p4) as (Hl5 & _).
  set (p5 := updateAreasForDistrict _ _ p4) in *.
  assert (Hd : value (districtSelect p5) = "") by (now rewrite Hd5).
  split; [|split; [|split; [|split]]]; auto.
  - rewrite Hl5, Hl4, Hl3, Hl2.
    destruct (start_language_cases q pathname); auto.
  - congruence.
  - unfold applyFilters. rewrite Hd, Ha5, Hq5, Hq4, Hq3, Hq2.
    now rewrite Hdoc5, Hdoc4, Hdoc3, Hdoc2.
Qed.
End StartupFacts.

(** ** The options of the district selector *)

Lemma districts_fold ls l city ds : forall acc x,
  In x (fold_left (districts_step ls l city) ds acc) <->
  In x acc \/
  (x <> "" /\
   exists d, In d ds /\
             (city = "" \/ label ls l Field.city d = city) /\
             label ls l Field.district d = x).
Proof.
  induction ds as [|d rest IH]; intros acc x; simpl.
  - split; auto. intros [H|(_ & d & [] & _)]. exact H.
  - rewrite IH. unfold districts_step.
    fold (label ls l Field.city d). fold (label ls l Field.district d).
    assert (Hcond : (city =? "") || (label ls l Field.city d =? city) = true
                    <-> city = "" \/ label ls l Field.city d = city).
    { rewrite orb_true_iff, !String.eqb_eq. tauto. }
    destruct ((city =? "") || (label ls l Field.city d =? city)) eqn:Ec.
    + pose proof (proj1 Hcond eq_refl) as Hc'.
      destruct (truthy (label ls l Field.district d)) eqn:Ed.
      * apply truthy_true_iff in Ed. rewrite set_add_In. split.
        -- intros [[->|H]|(Hx & d' & Hin & H)]; auto.
           ++ right. split; auto. exists d. auto.
           ++ right. split; auto. exists d'. auto.
        -- intros [H|(Hx & d' & [<-|Hin] & Hc & Hd)]; auto.
           right. split; auto. exists d'. auto.
      * apply truthy_false_iff in Ed. split.
        -- intros [H|(Hx & d' & Hin & H)]; auto.
           right. split; auto. exists d'. auto.
        -- intros [H|(Hx & d' & [<-|Hin] & Hc & Hd)]; auto.
           ++ congruence.
           ++ right. split; auto. exists d'. auto.
    + assert (Hn : ~ (city = "" \/ label ls l Field.city d = city)).
      { intros H. apply Hcond in H. discriminate. }
      split.
      * intros [H|(Hx & d' & Hin & H)]; auto.
        right. split; auto. exists d'. auto.
      * intros [H|(Hx & d' & [<-|Hin] & Hc & Hd)]; auto.
        -- contradiction.
        -- right. split; auto. exists d'. auto.
Qed.

(** ** Telephone links, again *)

Lemma replace_non_tel_fixed s :
  forallb tel_char (list_ascii_of_string s) = true -> replace_non_tel s = s.
Proof.
  induction s as [|c rest IH]; simpl; auto.
  intros H. apply andb_true_iff in H as [Hc Hrest].
  now rewrite Hc, IH.
Qed.

Lemma replace_non_tel_clean s :
  forallb tel_char (list_ascii_of_string (replace_non_tel s)) = true.
Proof.
  induction s as [|c rest IH]; simpl; auto.
  destruct (tel_char c) eqn:E; simpl; auto. now rewrite E.
Qed.

Lemma formatPhoneForTel_replace phone :
  formatPhoneForTel phone = replace_non_tel phone.
Proof.
  unfold formatPhoneForTel. destruct (truthy phone) eqn:E; simpl; auto.
  apply truthy_false_iff in E. now subst.
Qed.

(** Cleaning a phone value a second time changes nothing, and a value made
    of digits and ["+"] only is returned as it is. *)
Theorem formatPhoneForTel_idempotent (phone : string) :
  formatPhoneForTel (formatPhoneForTel phone) = formatPhoneForTel phone /\
  (forallb tel_char (list_ascii_of_string phone) = true ->
   formatPhoneForTel phone = phone).
Proof.
  rewrite !formatPhoneForTel_replace. split.
  - apply replace_non_tel_fixed, replace_non_tel_clean.
  - apply replace_non_tel_fixed.
Qed.

(** ** Cards *)

Lemma or_str_nonempty a b : b <> "" -> or_str a b <> "".
Proof.
  intros Hb. unfold or_str. destruct (truthy a) eqn:E; auto.
  now apply truthy_true_iff.
Qed.

Lemma row_lang_nonempty r : row_lang r <> "".
Proof. unfold row_lang. apply js_or_nonempty. discriminate. Qed.

Lemma js_or_default_of_empty x d :
  or_str (js_or x "") d = js_or x d.
Proof.
  unfold or_str. destruct x as [s|]; simpl; auto.
  destruct (truthy s) eqn:E; simpl; [now rewrite E | reflexivity].
Qed.

Section CardFacts.
Context {JS : JSString}.
Variable encodeURIComponent : string -> string.

(** A card always has a title, and the title is the doctor's name in the
    card's language whenever a non-empty one is stored. *)
Theorem card_title_never_empty (ls : string) (d : Doctor) (cardLang : string) :
  let card := renderCardFields encodeURIComponent ls d cardLang in
  card_title card <> "" /\
  (forall v, cardLang <> "" -> lookup cardLang (names d) = Some v ->
             v <> "" -> card_title card = v).
Proof.
  simpl. split.
  - apply or_str_nonempty, or_str_nonempty, js_or_nonempty. discriminate.
  - intros v Hl Hv Hne. rewrite (tData_resolve _ _ _ _ Hl). simpl plural.
    unfold resolve. rewrite (js_or_held _ _ _ _ Hv Hne).
    unfold or_str at 1. apply truthy_true_iff in Hne. now rewrite Hne.
Qed.

Lemma tData_row_doctor ls idx r f :
  tData ls (row_doctor idx r) f (row_lang r) = js_or (raw_field f r) "".
Proof.
  rewrite (tData_resolve _ _ _ _ (row_lang_nonempty r)), plural_row_doctor.
  rewrite resolve_single.
  - now rewrite String.eqb_refl.
  - intros H. now apply truthy_false_iff in H.
Qed.

Lemma or_str_same a : or_str a a = a.
Proof. unfold or_str. now destruct (truthy a). Qed.

(** In the per-row strategy a card starts in the language of its row,
    whatever the page language is, and shows that row's own name,
    specialty, address, phone, opening hours and remark, with the
    placeholder where the row has none. *)
Theorem per_row_card_shows_its_row (ls globalLang : string) (idx : nat)
    (r : Raw.t) :
  let d := row_doctor idx r in
  let card := renderCardFields encodeURIComponent ls d
                               (initial_cardLang globalLang d) in
  initial_cardLang globalLang d = row_lang r /\
  card_title card = js_or (Raw.doc_name r) "Unknown" /\
  card_meta card = js_or (Raw.doc_cat_name r) "—" /\
  card_address card = js_or (Raw.doc_address r) "—" /\
  card_phone card = js_or (Raw.doc_tel_A r) "" /\
  card_opening card = js_or (Raw.doc_wh r) "—" /\
  card_remark card = js_or (Raw.doc_remark r) "—".
Proof.
  intros d card.
  assert (Hlang : initial_cardLang globalLang d = row_lang r).
  { unfold initial_cardLang. subst d. cbn [names row_doctor keys map fst existsb].
    rewrite orb_false_r.
    destruct (String.eqb_spec globalLang (row_lang r)) as [->|Hne]; auto.
    cbn [hd_error js_or].
    pose proof (row_lang_nonempty r) as Hr. apply truthy_true_iff in Hr.
    now rewrite Hr. }
  split; [exact Hlang|]. subst card. rewrite Hlang. subst d.
  unfold renderCardFields. cbv zeta. cbn [card_title card_meta card_address
    card_phone card_opening card_remark].
  rewrite !tData_row_doctor.
  cbn [raw_field names phones openings remarks address row_doctor first_value
         values map snd hd_error].
  rewrite !js_or_Some_empty, !or_str_same, !js_or_default_of_empty.
  repeat split.
  assert (Hen : "en" <> "") by discriminate.
  rewrite (tData_resolve ls _ Field.name "en" Hen), plural_row_doctor.
  cbn [raw_field].
  destruct (Raw.doc_name r) as [s|] eqn:En; cbn [js_or].
  - destruct (truthy s) eqn:Es; [reflexivity|].
    rewrite resolve_single by reflexivity.
    now destruct (_ || _).
  - rewrite resolve_single by reflexivity.
    now destruct (_ || _).
Qed.
End CardFacts.

(** ** The options of the area selector *)

Lemma areas_fold ls l city district ds : forall acc x,
  In x (fold_left (areas_step ls l city district) ds acc) <->
  In x acc \/
  (x <> "" /\
   exists d, In d ds /\
             (city = "" \/ label ls l Field.city d = city) /\
             (district = "" \/ label ls l Field.district d = district) /\
             label ls l Field.area d = x).
Proof.
  induction ds as [|d rest IH]; intros acc x; simpl.
  - split; auto. intros [H|(_ & d & [] & _)]. exact H.
  - rewrite IH. unfold areas_step.
    fold (label ls l Field.city d). fold (label ls l Field.district d).
    fold (label ls l Field.area d).
    assert (Hcond :
              ((city =? "") || (label ls l Field.city d =? city))
              && ((district =? "") || (label ls l Field.district d =? district))
              = true
              <-> (city = "" \/ label ls l Field.city d = city) /\
                  (district = "" \/ label ls l Field.district d = district)).
    { rewrite andb_true_iff, !orb_true_iff, !String.eqb_eq. tauto. }
    destruct (((city =? "") || (label ls l Field.city d =? city))
              && ((district =? "")
                  || (label ls l Field.district d =? district))) eqn:Ec.
    + destruct (proj1 Hcond eq_refl) as [Hc' Hd'].
      destruct (truthy (label ls l Field.area d)) eqn:Ea.
      * apply truthy_true_iff in Ea. rewrite set_add_In. split.
        -- intros [[->|H]|(Hx & d' & Hin & H)]; auto.
           ++ right. split; auto. exists d. auto.
           ++ right. split; auto. exists d'. auto.
        -- intros [H|(Hx & d' & [<-|Hin] & Hc & Hd & Ha)]; auto.
           right. split; auto. exists d'. auto.
      * apply truthy_false_iff in Ea. split.
        -- intros [H|(Hx & d' & Hin & H)]; auto.
           right. split; auto. exists d'. auto.
        -- intros [H|(Hx & d' & [<-|Hin] & Hc & Hd & Ha)]; auto.
           ++ congruence.
           ++ right. split; auto. exists d'. auto.
    + assert (Hn : ~ ((city = "" \/ label ls l Field.city d = city) /\
                      (district = ""
                       \/ label ls l Field.district d = district))).
      { intros H. apply Hcond in H. discriminate. }
      split.
      * intros [H|(Hx & d' & Hin & H)]; auto.
        right. split; auto. exists d'. auto.
      * intros [H|(Hx & d' & [<-|Hin] & Hc & Hd & Ha)]; auto.
        -- destruct (Hn (conj Hc Hd)).
        -- right. split; auto. exists d'. auto.
Qed.

(** ** Options are not repeated *)

Lemma NoDup_set_add x s : NoDup s -> NoDup (set_add x s).
Proof.
  intros H. unfold set_add. destruct (set_has x s) eqn:E; auto.
  apply NoDup_app; auto.
  - constructor; [intros []|constructor].
  - intros a Ha [<-|[]].
    apply set_has_iff in Ha. congruence.
Qed.

Lemma NoDup_keys_insert {V : Type} (k : string) (v : V) m :
  NoDup (keys m) -> NoDup (keys (insert k v m)).
Proof.
  intros H. rewrite keys_insert, set_add_keys. now apply NoDup_set_add.
Qed.

Lemma NoDup_sort_insert x xs :
  ~ In x xs -> NoDup xs -> NoDup (sort_insert x xs).
Proof.
  induction xs as [|y rest IH]; simpl; intros Hx Hnd.
  - constructor; auto.
  - destruct (js_leb x y).
    + constructor; auto.
    + inversion Hnd as [|? ? Hy Hrest]; subst.
      constructor.
      * rewrite sort_insert_In. intros [->|H]; auto.
      * apply IH; auto.
Qed.

Lemma NoDup_sort xs : NoDup xs -> NoDup (sort xs).
Proof.
  induction xs as [|x rest IH]; simpl; intros H; [constructor|].
  inversion H as [|? ? Hx Hrest]; subst.
  apply NoDup_sort_insert; auto. now rewrite sort_In.
Qed.

Lemma NoDup_vocabulary ls l ds :
  NoDup (voc_specialties (build_vocabulary ls l ds)) /\
  NoDup (keys (voc_cities (build_vocabulary ls l ds))).
Proof.
  induction ds as [|d ds [IHs IHc]] using rev_ind.
  - split; constructor.
  - rewrite build_vocabulary_snoc. split.
    + unfold vocab_step. simpl.
      destruct (truthy _); auto. now apply NoDup_set_add.
    + rewrite voc_cities_step. cbv zeta.
      apply NoDup_keys_insert.
      destruct (has _ _); auto. now apply NoDup_keys_insert.
Qed.

(** [populateFilters] never adds a specialty or a city twice: the values
    of the options it appends to either selector are pairwise distinct. *)
Theorem populateFilters_options_distinct (p : Page) :
  exists specs cs,
    map opt_value (options (specialtySelect (populateFilters p))) =
      map opt_value (options (specialtySelect p)) ++ specs /\
    map opt_value (options (citySelect (populateFilters p))) =
      map opt_value (options (citySelect p)) ++ cs /\
    NoDup specs /\ NoDup cs.
Proof.
  destruct (NoDup_vocabulary (langSelect p) (ui_lang p) (doctors p))
    as [Hs Hc].
  exists (sort (voc_specialties
                  (build_vocabulary (langSelect p) (ui_lang p) (doctors p)))),
    (sort (keys (voc_cities
                   (build_vocabulary (langSelect p) (ui_lang p) (doctors p))))).
  split; [|split; [|split]].
  - unfold populateFilters. simpl.
    now rewrite options_append_options, map_app, map_map, map_id.
  - unfold populateFilters. simpl.
    now rewrite options_append_options, map_app, map_map, map_id.
  - now apply NoDup_sort.
  - now apply NoDup_sort.
Qed.

(** ** Captions *)

Lemma value_retitle_first label sel :
  value (retitle_first label sel) = value sel.
Proof.
  destruct sel as [[|o rest] [[|i]|]]; reflexivity.
Qed.

(** Translating the captions changes no choice and no doctor, so the
    list shown after [applyTranslationsToUI] is the list shown before. *)
Theorem translations_keep_the_list {JS : JSString} (p : Page) :
  applyFilters (applyTranslationsToUI p) = applyFilters p /\
  value (specialtySelect (applyTranslationsToUI p))
    = value (specialtySelect p) /\
  value (citySelect (applyTranslationsToUI p)) = value (citySelect p) /\
  value (districtSelect (applyTranslationsToUI p))
    = value (districtSelect p) /\
  value (areaSelect (applyTranslationsToUI p)) = value (areaSelect p).
Proof.
  unfold applyFilters, applyTranslationsToUI. simpl.
  rewrite !value_retitle_first. repeat split.
Qed.

(** ** The order of [sort] *)

Lemma units_leb_total xs : forall ys,
  units_leb xs ys = false -> units_leb ys xs = true.
Proof.
  induction xs as [|x xs IH]; intros [|y ys]; simpl; try congruence.
  destruct (N.ltb_spec x y); [discriminate|].
  destruct (N.eqb_spec x y) as [->|Hne].
  - rewrite N.ltb_irrefl, N.eqb_refl. apply IH.
  - intros _. destruct (N.ltb_spec y x); auto. lia.
Qed.

Lemma units_leb_trans xs : forall ys zs,
  units_leb xs ys = true -> units_leb ys zs = true -> units_leb xs zs = true.
Proof.
  induction xs as [|x xs IH]; intros [|y ys] [|z zs]; simpl; try congruence.
  destruct (N.ltb_spec x y), (N.ltb_spec y z), (N.ltb_spec x z); auto;
    try lia;
    destruct (N.eqb_spec x y), (N.eqb_spec y z), (N.eqb_spec x z);
    try congruence; try lia.
  apply IH.
Qed.

Lemma js_le_total x y : js_leb x y = false -> js_le y x.
Proof. apply units_leb_total. Qed.

Lemma js_le_trans x y z : js_le x y -> js_le y z -> js_le x z.
Proof. apply units_leb_trans. Qed.

Lemma sort_insert_sorted x xs :
  StronglySorted js_le xs -> StronglySorted js_le (sort_insert x xs).
Proof.
  induction xs as [|y rest IH]; simpl; intros H.
  - constructor; constructor.
  - inversion H as [|? ? Hrest Hy]; subst.
    destruct (js_leb x y) eqn:E.
    + constructor; auto. constructor; auto.
      apply Forall_forall. intros z Hz.
      apply (js_le_trans x y z); auto.
      rewrite Forall_forall in Hy. now apply Hy.
    + constructor; auto.
      apply Forall_forall. intros z Hz.
      apply sort_insert_In in Hz as [->|Hz].
      * now apply js_le_total.
      * rewrite Forall_forall in Hy. now apply Hy.
Qed.

Lemma sort_sorted xs : StronglySorted js_le (sort xs).
Proof.
  induction xs as [|x rest IH]; simpl; [constructor|].
  now apply sort_insert_sorted.
Qed.

(** Three specialty labels: the one outside the basic plane sorts before
    the full-width bracket, as its surrogates do. *)
Lemma sort_by_code_units :
  sort ["（其他）"; "𨋢科"; "心臟科"] = ["心臟科"; "𨋢科"; "（其他）"].
Proof. reflexivity. Qed.

(** ** The vocabulary, label by label *)

Lemma resolve_order m l :
  (forall v, lookup l m = Some v -> v <> "" -> resolve m l = v) /\
  (held m l = false ->
   forall v, lookup "zh-HK" m = Some v -> v <> "" -> resolve m l = v) /\
  (held m l = false -> held m "zh-HK" = false ->
   forall v, lookup "zh-CN" m = Some v -> v <> "" -> resolve m l = v) /\
  (held m l = false -> held m "zh-HK" = false -> held m "zh-CN" = false ->
   forall v, lookup "en" m = Some v -> v <> "" -> resolve m l = v) /\
  (held m l = false -> held m "zh-HK" = false -> held m "zh-CN" = false ->
   held m "en" = false -> resolve m l = "").
Proof.
  unfold resolve, held. repeat split.
  - intros v Hv Hne. now apply js_or_held.
  - intros H0 v Hv Hne. rewrite (js_or_falsy _ _ H0). now apply js_or_held.
  - intros H0 H1 v Hv Hne.
    rewrite (js_or_falsy _ _ H0), (js_or_falsy _ _ H1). now apply js_or_held.
  - intros H0 H1 H2 v Hv Hne.
    rewrite (js_or_falsy _ _ H0), (js_or_falsy _ _ H1), (js_or_falsy _ _ H2).
    now apply js_or_held.
  - intros H0 H1 H2 H3.
    now rewrite (js_or_falsy _ _ H0), (js_or_falsy _ _ H1),
      (js_or_falsy _ _ H2), (js_or_falsy _ _ H3).
Qed.

(** C2, amended. The vocabulary builder files every doctor under the
    labels that label resolution gives for the display language: the value
    stored under that language when present and non-empty, else the first
    present and non-empty one under ["zh-HK"], ["zh-CN"], ["en"], else
    nothing; a value stored under any other language is never used. The
    specialty options it appends are the non-empty specialty labels so
    resolved; the city options and the keys of the city map are the
    resolved city labels, the empty one included; the district keys under
    a city and the area labels under a district are those of the doctors
    resolved to that city and district, empty area labels left out. *)
Theorem vocabulary_uses_label_resolution (p : Page) :
  let l := ui_lang p in
  let lab := fun f d => tData (langSelect p) d f l in
  (forall f d,
      let m := plural f d in
      (forall v, lookup l m = Some v -> v <> "" -> lab f d = v) /\
      (held m l = false ->
       forall v, lookup "zh-HK" m = Some v -> v <> "" -> lab f d = v) /\
      (held m l = false -> held m "zh-HK" = false ->
       forall v, lookup "zh-CN" m = Some v -> v <> "" -> lab f d = v) /\
      (held m l = false -> held m "zh-HK" = false ->
       held m "zh-CN" = false ->
       forall v, lookup "en" m = Some v -> v <> "" -> lab f d = v) /\
      (held m l = false -> held m "zh-HK" = false ->
       held m "zh-CN" = false -> held m "en" = false -> lab f d = "") /\
      (lab f d <> "" ->
       exists k, (k = l \/ k = "zh-HK" \/ k = "zh-CN" \/ k = "en") /\
                 lookup k m = Some (lab f d))) /\
  exists specs cs cm,
    map opt_value (options (specialtySelect (populateFilters p))) =
      map opt_value (options (specialtySelect p)) ++ specs /\
    map opt_value (options (citySelect (populateFilters p))) =
      map opt_value (options (citySelect p)) ++ cs /\
    citiesMap (populateFilters p) = Some cm /\
    (forall s,
        In s specs <->
        s <> "" /\ exists d, In d (doctors p) /\ lab Field.specialty d = s) /\
    (forall c,
        In c cs <-> exists d, In d (doctors p) /\ lab Field.city d = c) /\
    (forall c,
        In c (keys cm) <-> exists d, In d (doctors p) /\ lab Field.city d = c) /\
    (forall c di,
        In di (keys (get_or cm c [])) <->
        exists d, In d (doctors p) /\ lab Field.city d = c /\
                  lab Field.district d = di) /\
    (forall c di a,
        In a (get_or (get_or cm c []) di []) <->
        a <> "" /\
        exists d, In d (doctors p) /\ lab Field.city d = c /\
                  lab Field.district d = di /\ lab Field.area d = a).
Proof.
  intros l lab. split.
  - intros f d m.
    assert (Hlab : lab f d = resolve m l).
    { apply tData_resolve, ui_lang_nonempty. }
    rewrite Hlab.
    destruct (resolve_order m l) as (H0 & H1 & H2 & H3 & H4).
    repeat split; auto.
    apply resolve_stored.
  - set (v := build_vocabulary (langSelect p) l (doctors p)).
    exists (sort (voc_specialties v)), (sort (keys (voc_cities v))),
      (voc_cities v).
    split; [|split; [|split; [|split; [|split; [|split; [|split]]]]]].
    + unfold populateFilters. simpl.
      now rewrite options_append_options, map_app, map_map, map_id.
    + unfold populateFilters. simpl.
      now rewrite options_append_options, map_app, map_map, map_id.
    + reflexivity.
    + intros s. rewrite sort_In. apply specialties_built.
    + intros c. rewrite sort_In. apply cities_built.
    + intros c. apply cities_built.
    + intros c di. apply districts_built.
    + intros c di a. apply areas_built.
Qed.

(** ** Stored empty strings and the two strategies *)

Lemma per_row_empty_resolves_empty ls idx item f l :
  l <> "" ->
  lookup l (plural f (row_doctor idx item)) = Some "" ->
  tData ls (row_doctor idx item) f l = "".
Proof.
  intros Hl. rewrite (tData_resolve _ _ _ _ Hl), plural_row_doctor.
  cbn [lookup]. destruct (l =? row_lang item); [|discriminate].
  intros [= Hv]. rewrite Hv.
  rewrite resolve_single by reflexivity. now destruct (_ || _).
Qed.

(** C10, as stated, fails in its last sentence: no doctor of the per-row
    strategy makes the fall-through visible, because each of its maps has
    one key only, and an empty string stored under the requested language
    resolves to the empty string. *)
Lemma per_row_placeholder_never_observable :
  ~ (exists data d f ls l,
        In d (normalizePerRow data) /\ l <> "" /\
        lookup l (plural f d) = Some "" /\ tData ls d f l <> "").
Proof.
  intros (data & d & f & ls & l & Hin & Hl & Hempty & Hout).
  apply In_map_idx in Hin as (n & r & _ & ->).
  apply Hout. now apply per_row_empty_resolves_empty.
Qed.

(** C10, amended. An empty string stored under the requested language
    counts as absent: resolution goes on through ["zh-HK"], ["zh-CN"],
    ["en"] and returns what that chain yields, which is non-empty as soon
    as one of the three holds a non-empty value. Both strategies store
    empty strings, the per-row one for every field a row lacks, the
    grouped one in [names]; but the fall-through shows on grouped doctors
    only, such as the one of [unnamed_en_rows], whose empty English name
    resolves to the Chinese one: on a per-row doctor a stored empty string
    always resolves to the empty string. *)
Theorem empty_label_falls_through (langSelect : string) (doc : Doctor)
    (field : Field.t) (lang : string) (Hlang : lang <> "")
    (Hempty : lookup lang (plural field doc) = Some "") :
  let m := plural field doc in
  tData langSelect doc field lang =
    js_or (lookup "zh-HK" m) (js_or (lookup "zh-CN" m)
                                (js_or (lookup "en" m) "")) /\
  (held m "zh-HK" = true \/ held m "zh-CN" = true \/ held m "en" = true ->
   tData langSelect doc field lang <> "") /\
  (forall idx item f,
      truthy_opt (raw_field f item) = false ->
      lookup (row_lang item) (plural f (row_doctor idx item)) = Some "") /\
  (forall data d f l,
      In d (normalizePerRow data) -> l <> "" ->
      lookup l (plural f d) = Some "" -> tData langSelect d f l = "") /\
  (In unnamed_en_doctor (mergeByDocId unnamed_en_rows) /\
   lookup "en" (names unnamed_en_doctor) = Some "" /\
   tData langSelect unnamed_en_doctor Field.name "en" = "陳").
Proof.
  intros m.
  assert (Hout : tData langSelect doc field lang =
                 js_or (lookup "zh-HK" m)
                   (js_or (lookup "zh-CN" m) (js_or (lookup "en" m) ""))).
  { rewrite (tData_resolve _ _ _ _ Hlang). fold m. unfold resolve.
    fold m in Hempty. now rewrite Hempty. }
  split; [exact Hout|]. split; [|split; [|split]].
  - rewrite Hout. intros [H|[H|H]].
    + now apply js_or_held_nonempty.
    + apply js_or_nonempty. now apply js_or_held_nonempty.
    + apply js_or_nonempty, js_or_nonempty. now apply js_or_held_nonempty.
  - intros idx item f Hf. rewrite plural_row_doctor. simpl.
    rewrite String.eqb_refl. now rewrite (js_or_falsy _ _ Hf).
  - intros data d f l Hin Hl Hl0.
    apply In_map_idx in Hin as (n & r & _ & ->).
    now apply per_row_empty_resolves_empty.
  - repeat split. left. reflexivity.
Qed.

(** The empty English name of [unnamed_en_doctor] resolves to the Chinese
    one. *)
Lemma empty_label_falls_through_witness :
  "en" <> "" /\
  lookup "en" (plural Field.name unnamed_en_doctor) = Some "" /\
  tData "en" unnamed_en_doctor Field.name "en" = "陳".
Proof.
  split; [discriminate|]. split; [reflexivity|].
  destruct (empty_label_falls_through "en" unnamed_en_doctor Field.name "en")
    as (H & _); [discriminate | reflexivity |].
  rewrite H. reflexivity.
Defined.

(** ** The languages of a grouped doctor *)

(** In the grouped strategy, when the language tags of the rows bearing a
    doctor's identifier are ordinary property names, the languages of the
    doctor's [names] are those tags in the order in which they first occur;
    the name under a language is the last non-empty name of the rows of
    that language, and the empty string when none of them has a name. *)
Theorem grouped_names (data : list Raw.t) (e : Doctor)
    (He : In e (mergeByDocId data))
    (Htags : forall r, In r data -> row_id r = id e ->
                       ordinary_tag (row_lang r) = true) :
  keys (names e) = uniq (map row_lang (rows_of (id e) data)) /\
  forall l,
    lookup l (names e) =
    match rows_of_lang (id e) l data with
    | [] => None
    | rows =>
        Some (match last_truthy (map Raw.doc_name rows) with
              | Some v => v
              | None => ""
              end)
    end.
Proof.
  destruct (mergeByDocId_entity He) as (i & _ & Hent).
  rewrite (entity_of_id Hent). unfold rows_of_lang.
  destruct (rows_of i data) as [|r rs]; [discriminate|].
  assert (Heq : e = fold_left apply_row (r :: rs) (fresh_doctor i r))
    by (unfold entity_of in Hent; congruence).
  rewrite Heq. split.
  - rewrite (keys_names_fold (r :: rs)). apply fold_set_add_uniq.
  - intros l. rewrite (lookup_names_fold l (r :: rs)). simpl names.
    simpl lookup. unfold name_after.
    destruct (filter _ (r :: rs)); auto.
Qed.

(** The names of the doctor built from [unnamed_en_rows], whose tags are
    ["en"] and ["zh-HK"]. *)
Lemma grouped_names_witness :
  In unnamed_en_doctor (mergeByDocId unnamed_en_rows) /\
  (forall r, In r unnamed_en_rows -> row_id r = id unnamed_en_doctor ->
             ordinary_tag (row_lang r) = true) /\
  keys (names unnamed_en_doctor) = ["en"; "zh-HK"] /\
  lookup "en" (names unnamed_en_doctor) = Some "".
Proof.
  assert (Htags : forall r, In r unnamed_en_rows ->
                            row_id r = id unnamed_en_doctor ->
                            ordinary_tag (row_lang r) = true).
  { intros r [<-|[<-|[]]] _; reflexivity. }
  split; [left; reflexivity|]. split; [exact Htags|].
  destruct (grouped_names unnamed_en_rows unnamed_en_doctor) as [Hk Hl];
    [left; reflexivity | exact Htags |].
  split; [exact Hk | exact (Hl "en")].
Defined.

(** ** The option lists, in order *)

Section OptionLists.
Context {JS : JSString}.

(** Changing the display language to [v] empties the four selectors and
    leaves the specialty and the city selector with the placeholder
    followed by nothing but the vocabulary of the new language: the
    non-empty specialty labels, respectively the city labels, that the
    doctors resolve to for [v], each once and in ascending order of their
    UTF-16 code units. It stores that vocabulary's city map and shows the
    doctors filtered by the text query alone. *)
Theorem language_change_rebuilds (v : string) (p : Page) :
  let (p', shown) := on_lang_change v p in
  let l := if truthy v then v else "en" in
  exists specs cs,
    langSelect p' = v /\
    value (specialtySelect p') = "" /\ value (citySelect p') = "" /\
    value (districtSelect p') = "" /\ value (areaSelect p') = "" /\
    map opt_value (options (specialtySelect p')) = "" :: specs /\
    StronglySorted js_le specs /\ NoDup specs /\
    (forall s,
        In s specs <->
        s <> "" /\
        exists d, In d (doctors p) /\ tData v d Field.specialty l = s) /\
    map opt_value (options (citySelect p')) = "" :: cs /\
    StronglySorted js_le cs /\ NoDup cs /\
    (forall c,
        In c cs <-> exists d, In d (doctors p) /\ tData v d Field.city l = c) /\
    citiesMap p' = Some (voc_cities (build_vocabulary v l (doctors p))) /\
    shown = filter (passes (toLowerCase (trim (searchInput p))) "" "" "" "")
                   (doctors p).
Proof.
  unfold on_lang_change. cbv zeta.
  set (l := if truthy v then v else "en").
  set (voc := build_vocabulary v l (doctors p)).
  set (p0 := applyTranslationsToUI (with_langSelect v p)).
  set (p4 := with_areaSelect _ _).
  set (p5 := populateFilters p4).
  assert (Hs5 : specialtySelect p5 =
                append_options (reset_options (t p0 allSpecialties))
                  (map (fun s => mkOption s s) (sort (voc_specialties voc))))
    by reflexivity.
  assert (Hc5 : citySelect p5 =
                append_options (reset_options (t p0 allCities))
                  (map (fun c => mkOption c (if truthy c then c else "—"))
                     (sort (keys (voc_cities voc))))) by reflexivity.
  assert (Hm5 : citiesMap p5 = Some (voc_cities voc)) by reflexivity.
  assert (Hl5 : langSelect p5 = v) by reflexivity.
  assert (Hq5 : searchInput p5 = searchInput p) by reflexivity.
  assert (Hdoc5 : doctors p5 = doctors p) by reflexivity.
  destruct (updateDistrictsForCity_resets "" p5)
    as (Hd6 & _ & Hq6 & Hs6 & Hc6 & Hdoc6).
  destruct (updateDistrictsForCity_globals "" p5) as (Hl6 & Hm6).
  set (p6 := updateDistrictsForCity "" p5) in *.
  destruct (updateAreasForDistrict_resets "" "" p6)
    as (Ha7 & Hd7 & Hq7 & Hs7 & Hc7 & Hdoc7).
  destruct (updateAreasForDistrict_globals "" "" p6) as (Hl7 & Hm7).
  set (p7 := updateAreasForDistrict "" "" p6) in *.
  assert (Hs : value (specialtySelect p7) = "").
  { rewrite Hs7, Hs6, Hs5. apply value_reset_then_append. }
  assert (Hc : value (citySelect p7) = "").
  { rewrite Hc7, Hc6, Hc5. apply value_reset_then_append. }
  assert (Hd : value (districtSelect p7) = "") by (now rewrite Hd7).
  destruct (NoDup_vocabulary v l (doctors p)) as [Hnds Hndc].
  fold voc in Hnds, Hndc.
  exists (sort (voc_specialties voc)), (sort (keys (voc_cities voc))).
  split; [congruence|]. split; [exact Hs|]. split; [exact Hc|].
  split; [exact Hd|]. split; [exact Ha7|].
  split; [|split; [|split; [|split; [|split; [|split; [|split;
    [|split; [|split]]]]]]]].
  - rewrite Hs7, Hs6, Hs5, options_append_options. simpl.
    now rewrite map_map, map_id.
  - apply sort_sorted.
  - now apply NoDup_sort.
  - intros s. rewrite sort_In. apply specialties_built.
  - rewrite Hc7, Hc6, Hc5, options_append_options. simpl.
    now rewrite map_map, map_id.
  - apply sort_sorted.
  - now apply NoDup_sort.
  - intros c. rewrite sort_In. apply cities_built.
  - congruence.
  - unfold applyFilters.
    rewrite Hs, Hc, Hd, Ha7, Hq7, Hq6, Hq5, Hdoc7, Hdoc6, Hdoc5. reflexivity.
Qed.
End OptionLists.

(** When the stored city map is the one built for the page's language and
    doctors, the district selector offers, after its placeholder and in
    ascending order of their UTF-16 code units, the district labels of the
    doctors resolved to the given city, an empty district label included.
    For a city no doctor resolves to, it offers nothing, except that the
    empty city then offers the non-empty districts of all doctors; so
    [All Cities] lists every district only as long as every doctor has a
    city label. *)
Theorem district_options (city : string) (p : Page)
    (Hmap : citiesMap p =
            Some (voc_cities (build_vocabulary (langSelect p) (ui_lang p)
                                               (doctors p)))) :
  let lab := label (langSelect p) (ui_lang p) in
  exists xs,
    map opt_value (options (districtSelect (updateDistrictsForCity city p)))
      = "" :: xs /\
    StronglySorted js_le xs /\
    forall x,
      In x xs <->
      (exists d, In d (doctors p) /\ lab Field.city d = city /\
                 lab Field.district d = x) \/
      (city = "" /\
       (forall d, In d (doctors p) -> lab Field.city d <> "") /\
       x <> "" /\
       exists d, In d (doctors p) /\ lab Field.district d = x).
Proof.
  intros lab. unfold updateDistrictsForCity. rewrite Hmap.
  set (cm := voc_cities _).
  pose proof (cities_built (langSelect p) (ui_lang p) (doctors p) city)
    as Hcity.
  fold cm in Hcity. fold lab in Hcity.
  destruct (has city cm) eqn:Ehas.
  - exists (sort (keys (get_or cm city []))). split; [|split].
    + simpl. rewrite options_append_options. simpl.
      now rewrite map_map, map_id.
    + apply sort_sorted.
    + intros x. rewrite sort_In. unfold cm.
      rewrite (districts_built (langSelect p) (ui_lang p) (doctors p) city x).
      fold lab. split; auto.
      intros [H|(-> & Hall & _)]; auto.
      apply has_true_iff in Ehas. apply Hcity in Ehas as (d & Hin & Hd).
      destruct (Hall d Hin Hd).
  - exists (sort (fold_left (districts_step (langSelect p) (ui_lang p) city)
                            (doctors p) [])).
    split; [|split].
    + simpl. rewrite options_append_options. simpl.
      now rewrite map_map, map_id.
    + apply sort_sorted.
    + intros x. rewrite sort_In, districts_fold. fold lab.
      apply has_false_iff in Ehas.
      assert (Hno : forall d, In d (doctors p) -> lab Field.city d <> city).
      { intros d Hin Hd. apply Ehas, Hcity. exists d. auto. }
      split.
      * intros [[]|(Hx & d & Hin & [->|Hc] & Hd)].
        -- right. repeat split; auto. exists d. auto.
        -- destruct (Hno d Hin Hc).
      * intros [(d & Hin & Hc & _)|(-> & _ & Hx & d & Hin & Hd)].
        -- destruct (Hno d Hin Hc).
        -- right. split; auto. exists d. auto.
Qed.

(** On [districts_page] the district selector offers Central and Wan Chai
    for Hong Kong, in this order. *)
Lemma district_options_witness :
  citiesMap districts_page =
    Some (voc_cities (build_vocabulary (langSelect districts_page)
                        (ui_lang districts_page) (doctors districts_page))) /\
  map opt_value
      (options (districtSelect
                  (updateDistrictsForCity "Hong Kong" districts_page)))
    = [""; "Central"; "Wan Chai"] /\
  exists xs,
    map opt_value
        (options (districtSelect
                    (updateDistrictsForCity "Hong Kong" districts_page)))
      = "" :: xs /\
    StronglySorted js_le xs /\ In "Central" xs /\ In "Wan Chai" xs.
Proof.
  split; [reflexivity|]. split; [reflexivity|].
  destruct (district_options "Hong Kong" districts_page eq_refl)
    as (xs & Hxs & Hsorted & Hin).
  exists xs. split; [exact Hxs|]. split; [exact Hsorted|]. split.
  - apply Hin. left. exists central_doctor.
    split; [right; left; reflexivity|]. split; reflexivity.
  - apply Hin. left. exists wan_chai_doctor.
    split; [left; reflexivity|]. split; reflexivity.
Defined.

(** When the stored city map is the one built for the page's language and
    doctors and some doctor resolves to the given city, the area selector
    offers, after its placeholder and in ascending order of their UTF-16
    code units, the non-empty area labels of the doctors resolved to
    exactly that city and that district; for the empty district these are
    the areas of the doctors without a district label only. For a city no
    doctor resolves to it offers nothing, except that the empty city
    offers the areas of all doctors of the district, or of all doctors
    when the district is empty too. *)
Theorem area_options (city district : string) (p : Page)
    (Hmap : citiesMap p =
            Some (voc_cities (build_vocabulary (langSelect p) (ui_lang p)
                                               (doctors p)))) :
  let lab := label (langSelect p) (ui_lang p) in
  exists xs,
    map opt_value
        (options (areaSelect (updateAreasForDistrict city district p)))
      = "" :: xs /\
    StronglySorted js_le xs /\
    forall x,
      In x xs <->
      x <> "" /\
      ((exists d, In d (doctors p) /\ lab Field.city d = city /\
                  lab Field.district d = district /\ lab Field.area d = x) \/
       (city = "" /\
        (forall d, In d (doctors p) -> lab Field.city d <> "") /\
        exists d, In d (doctors p) /\
                  (district = "" \/ lab Field.district d = district) /\
                  lab Field.area d = x)).
Proof.
  intros lab. unfold updateAreasForDistrict. rewrite Hmap.
  set (cm := voc_cities _).
  pose proof (cities_built (langSelect p) (ui_lang p) (doctors p) city)
    as Hcity.
  fold cm in Hcity. fold lab in Hcity.
  destruct (has city cm) eqn:Ehas.
  - exists (sort (get_or (get_or cm city []) district [])). split; [|split].
    + simpl. rewrite options_append_options. simpl.
      now rewrite map_map, map_id.
    + apply sort_sorted.
    + intros x. rewrite sort_In. unfold cm.
      rewrite (areas_built (langSelect p) (ui_lang p) (doctors p)
                           city district x).
      fold lab. split.
      * intros (Hx & H). auto.
      * intros (Hx & [H|(-> & Hall & _)]); auto.
        apply has_true_iff in Ehas. apply Hcity in Ehas as (d & Hin & Hd).
        destruct (Hall d Hin Hd).
  - exists (sort (fold_left
                    (areas_step (langSelect p) (ui_lang p) city district)
                    (doctors p) [])).
    split; [|split].
    + simpl. rewrite options_append_options. simpl.
      now rewrite map_map, map_id.
    + apply sort_sorted.
    + intros x. rewrite sort_In, areas_fold. fold lab.
      apply has_false_iff in Ehas.
      assert (Hno : forall d, In d (doctors p) -> lab Field.city d <> city).
      { intros d Hin Hd. apply Ehas, Hcity. exists d. auto. }
      split.
      * intros [[]|(Hx & d & Hin & [->|Hc] & Hd & Ha)].
        -- split; auto. right. repeat split; auto. exists d. auto.
        -- destruct (Hno d Hin Hc).
      * intros (Hx & [(d & Hin & Hc & _)|(-> & _ & d & Hin & Hd & Ha)]).
        -- destruct (Hno d Hin Hc).
        -- right. split; auto. exists d. auto.
Qed.

(** On [districts_page] the area selector offers Soho for Central in Hong
    Kong, and nothing for Hong Kong without a district. *)
Lemma area_options_witness :
  citiesMap districts_page =
    Some (voc_cities (build_vocabulary (langSelect districts_page)
                        (ui_lang districts_page) (doctors districts_page))) /\
  map opt_value
      (options (areaSelect
                  (updateAreasForDistrict "Hong Kong" "Central"
                                          districts_page)))
    = [""; "Soho"] /\
  map opt_value
      (options (areaSelect
                  (updateAreasForDistrict "Hong Kong" "" districts_page)))
    = [""] /\
  exists xs,
    map opt_value
        (options (areaSelect
                    (updateAreasForDistrict "Hong Kong" "Central"
                                            districts_page)))
      = "" :: xs /\
    StronglySorted js_le xs /\ In "Soho" xs.
Proof.
  split; [reflexivity|]. split; [reflexivity|]. split; [reflexivity|].
  destruct (area_options "Hong Kong" "Central" districts_page eq_refl)
    as (xs & Hxs & Hsorted & Hin).
  exists xs. split; [exact Hxs|]. split; [exact Hsorted|].
  apply Hin. split; [discriminate|]. left. exists central_doctor.
  split; [right; left; reflexivity|]. repeat split.
Defined.
